(** * Incident log: root-cause aggregation and LIME explanation glue

    A shallow embedding of [summarize_root_causes.py] and of the
    explanation part of [incident_logger.py].

    Conventions of the model.
    - A Python [str] is a [string] of 7-bit ASCII characters.
    - A Python [float] is a rational number ([Q]): sums are exact, so every
      equation on scores below is an equation of the idealised arithmetic,
      and nothing is stated that rests on the order in which floats are
      added.
    - A Python [int] is a [Z].
    - A [dict] (and a [defaultdict]) is an association list in insertion
      order, because the order of [rc_scores.items()] is what the final
      stable sort sees.
    - Objects handed to the code from scikit-learn and LIME (the pipeline,
      the explainer, the explanation) are records of their methods; a method
      that can raise returns a [result].
    - The explainer draws its samples from a random generator that it
      holds: the state of that generator is passed to [explain_instance]
      and returned by it, and threaded through every function that calls
      it. *)

From Stdlib Require Import List Bool Arith ZArith QArith Qabs Lia.
From Stdlib Require Import Ascii String Sorting.Sorted Permutation.
From Stdlib Require Import Setoid Morphisms.
Import ListNotations.

Close Scope Q_scope.
Open Scope string_scope.
Open Scope list_scope.
Open Scope nat_scope.

(** ** Python string primitives *)

Module PyStr.

(** [str.isspace] on the ASCII range: TAB, LF, VT, FF, CR, FS, GS, RS, US
    and the space. *)
Definition is_space (c : ascii) : bool :=
  let n := nat_of_ascii c in
  ((9 <=? n) && (n <=? 13)) || ((28 <=? n) && (n <=? 32)).

Definition lower_char (c : ascii) : ascii :=
  let n := nat_of_ascii c in
  if (65 <=? n) && (n <=? 90) then ascii_of_nat (n + 32) else c.

(** [s.lower()] *)
Fixpoint lower (s : string) : string :=
  match s with
  | EmptyString => EmptyString
  | String c s' => String (lower_char c) (lower s')
  end.

Fixpoint lstrip (s : string) : string :=
  match s with
  | EmptyString => EmptyString
  | String c s' => if is_space c then lstrip s' else s
  end.

Fixpoint rstrip (s : string) : string :=
  match s with
  | EmptyString => EmptyString
  | String c s' =>
      match rstrip s' with
      | EmptyString => if is_space c then EmptyString else String c EmptyString
      | r => String c r
      end
  end.

(** [s.strip()] *)
Definition strip (s : string) : string := rstrip (lstrip s).

(** [kw in t]: [kw] occurs in [t] as a contiguous substring. *)
Fixpoint contains (kw t : string) : bool :=
  prefix kw t ||
  match t with
  | EmptyString => false
  | String _ t' => contains kw t'
  end.

(** [s.replace(a, b)] for one-character [a] and [b]. *)
Fixpoint replace_char (a b : ascii) (s : string) : string :=
  match s with
  | EmptyString => EmptyString
  | String c s' =>
      String (if Ascii.eqb c a then b else c) (replace_char a b s')
  end.

(** [s.split()]: the maximal runs of non-whitespace characters.  [cur] is
    the run being read, most recent character first. *)
Fixpoint rev_string (acc s : string) : string :=
  match s with
  | EmptyString => acc
  | String c s' => rev_string (String c acc) s'
  end.

Definition flush (cur : string) : list string :=
  match cur with
  | EmptyString => []
  | _ => [rev_string EmptyString cur]
  end.

Fixpoint split_from (cur s : string) : list string :=
  match s with
  | EmptyString => flush cur
  | String c s' =>
      if is_space c then flush cur ++ split_from EmptyString s'
      else split_from (String c cur) s'
  end.

Definition split (s : string) : list string := split_from EmptyString s.

(** [Sub p t]: [p] is a contiguous piece of [t]. *)
Definition Sub (p t : string) : Prop :=
  exists a b, t = (a ++ p ++ b)%string.

Fixpoint no_space (s : string) : bool :=
  match s with
  | EmptyString => true
  | String c s' => negb (is_space c) && no_space s'
  end.

End PyStr.

(** ** Dictionaries in insertion order *)

Module PyDict.

Definition dict (V : Type) := list (string * V).

(** [d[k]] on a [defaultdict] whose factory yields [dflt] (read only). *)
Fixpoint get {V} (dflt : V) (k : string) (d : dict V) : V :=
  match d with
  | [] => dflt
  | (k', v) :: d' => if String.eqb k' k then v else get dflt k d'
  end.

(** [d[k] = f (d[k])] on a [defaultdict]: an existing key keeps its place,
    a new key goes last. *)
Fixpoint upd {V} (dflt : V) (f : V -> V) (k : string) (d : dict V) : dict V :=
  match d with
  | [] => [(k, f dflt)]
  | (k', v) :: d' =>
      if String.eqb k' k then (k', f v) :: d' else (k', v) :: upd dflt f k d'
  end.

Definition keys {V} (d : dict V) : list string := map fst d.
Definition values {V} (d : dict V) : list V := map snd d.

End PyDict.

(** ** summarize_root_causes.py *)

Module Summarize.
Import PyStr PyDict.

Definition ROOT_CAUSE_KEYWORDS : list (string * list string) :=
  [ ("Slip/Trip (wet floor)", ["slip"; "slipped"; "wet"; "floor"; "pipe"]);
    ("Falling objects", ["box"; "shelf"; "fell"; "fall"; "foot"; "hitting"]);
    ("Cuts/Sharp object", ["cut"; "cutter"; "box cutter"; "hand"]);
    ("Chemical spill", ["chemical"; "spill"; "storage"]);
    ("Equipment / Forklift", ["forklift"; "pallet"; "collided"; "knocked"]);
    ("Fire/Overheat", ["fire"; "overheated"; "alarm"; "triggered"]);
    ("Maintenance/Fall", ["ladder"; "maintenance"; "task"]);
    ("Electrical", ["wiring"; "electrical"; "spark"]);
    ("Struck by/against", ["head"; "beam"; "struck"]) ].

(** The inner loop of [match_root_cause]: does some keyword occur in [t]? *)
Definition any_keyword_in (keywords : list string) (t : string) : bool :=
  existsb (fun kw => contains kw t) keywords.

Fixpoint match_in (taxonomy : list (string * list string)) (t : string)
  : list string :=
  match taxonomy with
  | [] => []
  | (rc, keywords) :: rest =>
      if any_keyword_in keywords t then rc :: match_in rest t
      else match_in rest t
  end.

Definition match_root_cause (token : string) : list string :=
  match_in ROOT_CAUSE_KEYWORDS (lower token).

Definition STOP_WORDS : list string :=
  ["and"; "the"; "of"; "in"; "to"; "by"; "with"; "from"].

Definition in_set (s : string) (l : list string) : bool :=
  existsb (String.eqb s) l.

(** One entry of an incident's ["explanation"] list; [feat.get] supplies the
    defaults for absent keys. *)
Record feat := mkFeat { feature : option string; weight : option Q }.

Definition get_feature (f : feat) : string :=
  match feature f with Some s => s | None => "" end.
Definition get_weight (f : feat) : Q :=
  match weight f with Some w => w | None => 0%Q end.

Record incident := mkIncident { explanation : option (list feat) }.

Definition get_explanation (inc : incident) : list feat :=
  match explanation inc with Some l => l | None => [] end.

(** The two accumulators of [main]. *)
Record acc := mkAcc { rc_scores : dict Q; rc_counts : dict Z }.

Definition empty_acc : acc := mkAcc [] [].

(** [rc_scores[rc] += weight; rc_counts[rc] += 1] *)
Definition credit (w : Q) (a : acc) (rc : string) : acc :=
  mkAcc (upd 0%Q (fun s => (s + w)%Q) rc (rc_scores a))
        (upd 0%Z (fun c => (c + 1)%Z) rc (rc_counts a)).

Definition token_of (f : feat) : string := strip (get_feature f).

Definition skipped (token : string) : bool :=
  (String.length token =? 0) || in_set (lower token) STOP_WORDS.

Definition subtoks (token : string) : list string :=
  filter (fun t => (2 <? String.length t))
         (split (replace_char "_" " " token)).

(** The [for st in subtoks] loop: the first non-empty match, else [[]]. *)
Fixpoint first_match (sts : list string) : list string :=
  match sts with
  | [] => []
  | st :: rest =>
      match match_root_cause st with
      | [] => first_match rest
      | m2 => m2
      end
  end.

Definition resolve (token : string) : list string :=
  match match_root_cause token with
  | [] => first_match (subtoks token)
  | matched => matched
  end.

(** The body of [for feat in explanation]. *)
Definition step (a : acc) (f : feat) : acc :=
  let token := token_of f in
  let w := Qabs (get_weight f) in
  if skipped token then a
  else
    match resolve token with
    | [] => credit w a "Other"
    | matched => fold_left (credit w) matched a
    end.

Definition scan (a : acc) (incidents : list incident) : acc :=
  fold_left (fun a inc => fold_left step (get_explanation inc) a) incidents a.

(** [sorted(items, key=lambda x: x[1], reverse=True)]: Python's sort is
    stable, also under [reverse=True], and a stable sort has one possible
    output, which insertion from the right computes. *)
Fixpoint insert_desc (x : string * Q) (l : list (string * Q))
  : list (string * Q) :=
  match l with
  | [] => [x]
  | y :: l' =>
      if Qle_bool (snd y) (snd x) then x :: l
      else y :: insert_desc x l'
  end.

Definition sorted_desc (l : list (string * Q)) : list (string * Q) :=
  fold_right insert_desc [] l.

Record bucket := mkBucket
  { name : string; aggregated_score : Q; count : Z }.

(** [items], then [labels], [scores] and [counts] zipped into buckets. *)
Definition report (a : acc) : list bucket :=
  map (fun it => mkBucket (fst it) (snd it) (get 0%Z (fst it) (rc_counts a)))
      (sorted_desc (rc_scores a)).

Definition aggregate (incidents : list incident) : list bucket :=
  report (scan empty_acc incidents).

Definition total_score (bs : list bucket) : Q :=
  fold_right (fun b s => (aggregated_score b + s)%Q) 0%Q bs.

(** *** Quantities the statements on the aggregation speak about *)

Definition sumQ (l : list Q) : Q := fold_right Qplus 0%Q l.

Definition abs_weight (f : feat) : Q := Qabs (get_weight f).

Definition all_feats (incidents : list incident) : list feat :=
  flat_map get_explanation incidents.

(** How many buckets one feature is credited to: each matching bucket, or
    ["Other"] alone when none matches. *)
Definition credited_buckets (f : feat) : nat :=
  Nat.max 1 (List.length (match_root_cause (token_of f))).

Definition times (n : nat) (q : Q) : Q := (inject_Z (Z.of_nat n) * q)%Q.

(** The weight a feature puts into the buckets if nothing is skipped. *)
Definition full_contribution (f : feat) : Q :=
  times (credited_buckets f) (abs_weight f).

(** The weight a feature puts into the buckets when stop words and empty
    tokens are skipped. *)
Definition contribution (f : feat) : Q :=
  if skipped (token_of f) then 0%Q else full_contribution f.

Definition has_score (q : Q) (it : string * Q) : bool := Qeq_bool (snd it) q.

Definition bucket_has_score (q : Q) (b : bucket) : bool :=
  Qeq_bool (aggregated_score b) q.

Definition desc_item (x y : string * Q) : Prop := (snd y <= snd x)%Q.

Definition desc_by_score (b1 b2 : bucket) : Prop :=
  (aggregated_score b2 <= aggregated_score b1)%Q.

(** Ties in lexical order of the bucket names. *)
Definition lexical_ties (bs : list bucket) : Prop :=
  ForallOrdPairs
    (fun b1 b2 =>
       (aggregated_score b1 == aggregated_score b2)%Q ->
       String.leb (name b1) (name b2) = true) bs.

End Summarize.

(** ** incident_logger.py: explanation and log entries *)

Module Logger.
Import PyStr PyDict.

(** An exception, by the name of its class.  Only subclasses of [Exception]
    are modelled, so [except Exception] catches every [exn]. *)
Inductive exn : Type := Exception (cls : string).

Inductive result (A : Type) : Type :=
| Ok (a : A)
| Raise (e : exn).
Arguments Ok {A} a.
Arguments Raise {A} e.

Definition bind {A B} (c : result A) (k : A -> result B) : result B :=
  match c with
  | Ok a => k a
  | Raise e => Raise e
  end.

Notation "x <- c ;; k" := (bind c (fun x => k))
  (at level 61, c at next level, right associativity).

Definition label := string.

(** *** The objects of scikit-learn and LIME, by the methods the code calls *)

(** The [exp] object returned by [explain_instance]: the mapping [local_exp]
    from class index to (feature index, weight) pairs, and [as_list]. *)
Record LimeExplanation := mkExp
  { local_exp : list (Z * list (Z * Q));
    as_list : Z -> result (list (string * Q)) }.

(** The state of the random generator that the explainer holds.  The code
    never looks into it, and never sets it: [LimeTextExplainer] is built
    without [random_state], so the state a run starts from is whatever the
    process-wide generator of numpy holds. *)
Definition RandomState := N.

(** [explain_instance] draws its perturbed samples from the random state,
    and leaves a new state behind, also when it raises. *)
Record LimeTextExplainer := mkExplainer
  { explain_instance :
      string -> (list string -> result (list (list Q))) -> Z ->
      RandomState -> result LimeExplanation * RandomState }.

Record LogisticRegression := mkClf { classes_ : result (list label) }.

Record Pipeline := mkPipeline
  { predict_proba : list string -> result (list (list Q));
    predict : list string -> result (list label);
    named_steps_get : string -> result (option LogisticRegression) }.

(** *** List primitives *)

(** [l[0]] *)
Definition item0 {A} (l : list A) : result A :=
  match l with
  | x :: _ => Ok x
  | [] => Raise (Exception "IndexError")
  end.

(** [l[i]] for [i] in [range(...)] *)
Definition item {A} (l : list A) (i : nat) : result A :=
  match nth_error l i with
  | Some x => Ok x
  | None => Raise (Exception "IndexError")
  end.

(** [l.index(x)] *)
Fixpoint index_of (x : label) (l : list label) : result Z :=
  match l with
  | [] => Raise (Exception "ValueError")
  | y :: l' =>
      if String.eqb y x then Ok 0%Z
      else i <- index_of x l' ;; Ok (i + 1)%Z
  end.

(** [sorted] on integers. *)
Fixpoint insert_asc (x : Z) (l : list Z) : list Z :=
  match l with
  | [] => [x]
  | y :: l' => if (x <=? y)%Z then x :: l else y :: insert_asc x l'
  end.

Definition sorted_asc (l : list Z) : list Z := fold_right insert_asc [] l.

(** *** explain_with_lime *)

(** The [try] block: the index of [pred] among the classifier's classes,
    [None] when the step is missing or anything raises. *)
Definition try_label_index (pipeline : Pipeline) (pred : label) : option Z :=
  match
    (final_clf <- named_steps_get pipeline "logisticregression" ;;
     match final_clf with
     | Some clf =>
         cs <- classes_ clf ;;
         i <- index_of pred cs ;;
         Ok (Some i)
     | None => Ok None
     end)
  with
  | Ok r => r
  | Raise _ => None
  end.

Definition local_exp_keys (exp : LimeExplanation) : list Z :=
  map fst (local_exp exp).

(** [available[0] if available else 0] *)
Definition fallback_index (exp : LimeExplanation) : Z :=
  match sorted_asc (local_exp_keys exp) with
  | a :: _ => a
  | [] => 0%Z
  end.

Definition in_keys (i : Z) (exp : LimeExplanation) : bool :=
  existsb (Z.eqb i) (local_exp_keys exp).

(** The label index that [as_list] is asked for. *)
Definition pick_label_index (label_index : option Z) (exp : LimeExplanation)
  : Z :=
  match label_index with
  | None => fallback_index exp
  | Some i => if in_keys i exp then i else fallback_index exp
  end.

Definition to_feat (fw : string * Q) : Summarize.feat :=
  Summarize.mkFeat (Some (fst fw)) (Some (snd fw)).

(** [rs] is the random state of [explainer] when the function is called;
    the state it leaves is returned with the result. *)
Definition explain_with_lime
  (pipeline : Pipeline) (class_names : list label) (text : string)
  (explainer : LimeTextExplainer) (num_features : Z) (rs : RandomState)
  : result (label * list Summarize.feat * LimeExplanation) * RandomState :=
  let '(r, rs') :=
    explain_instance explainer text (predict_proba pipeline)
      num_features rs in
  (exp <- r ;;
   preds <- predict pipeline [text] ;;
   pred <- item0 preds ;;
   let label_index := pick_label_index (try_label_index pipeline pred) exp in
   feature_list <- as_list exp label_index ;;
   Ok (pred, map to_feat feature_list, exp),
   rs').

(** *** generate_incident_log *)

Record event := mkEvent
  { id : string; timestamp : string; location : string;
    description : string; witness_count : Z; injured : bool }.

Record entry := mkEntry
  { entry_id : string; entry_timestamp : string; entry_location : string;
    entry_description : string; entry_witness_count : Z;
    entry_injured : bool;
    predicted_severity : label;
    predicted_proba : dict Q;
    explanation : list Summarize.feat;
    summary : string }.

(** [d[k] = v] *)
Definition set {V} (k : string) (v : V) (d : dict V) : dict V :=
  upd v (fun _ => v) k d.

(** [{class_names[i]: proba[i] for i in range(len(class_names))}] *)
Fixpoint proba_items (class_names : list label) (proba : list Q)
  (range : list nat) (d : dict Q) : result (dict Q) :=
  match range with
  | [] => Ok d
  | i :: range' =>
      k <- item class_names i ;;
      v <- item proba i ;;
      proba_items class_names proba range' (set k v d)
  end.

Definition proba_dict (class_names : list label) (proba : list Q)
  : result (dict Q) :=
  proba_items class_names proba (seq 0 (List.length class_names)) [].

(** [s.split("=")[0]] *)
Fixpoint before_eq (s : string) : string :=
  match s with
  | EmptyString => EmptyString
  | String c s' =>
      if Ascii.eqb c "=" then EmptyString else String c (before_eq s')
  end.

Definition top_feat (f : Summarize.feat) : string :=
  let s := Summarize.get_feature f in
  if contains "=" s then before_eq s else s.

Definition make_summary (e : event) (pred : label)
  (top_feats : list string) : string :=
  ("Incident at " ++ location e ++ " on " ++ timestamp e
   ++ ": classified as " ++ pred ++ ". Key contributing phrases: "
   ++ String.concat ", " top_feats ++ ".")%string.

(** The body of [for e in events]. *)
Definition log_entry (pipeline : Pipeline) (class_names : list label)
  (explainer : LimeTextExplainer) (e : event) (rs : RandomState)
  : result entry * RandomState :=
  let text := description e in
  let '(r, rs') :=
    explain_with_lime pipeline class_names text explainer 5%Z rs in
  (x <- r ;;
   let '(pred, explanation, _) := x in
   rows <- predict_proba pipeline [text] ;;
   proba <- item0 rows ;;
   let top_feats := map top_feat explanation in
   let summary := make_summary e pred top_feats in
   predicted_proba <- proba_dict class_names proba ;;
   Ok (mkEntry (id e) (timestamp e) (location e) text (witness_count e)
         (injured e) pred predicted_proba explanation summary),
   rs').

(** The loop over the events: the one explainer serves them all, so each
    event meets the random state that the one before left. *)
Fixpoint for_each {A B} (f : A -> RandomState -> result B * RandomState)
  (l : list A) (rs : RandomState) : result (list B) * RandomState :=
  match l with
  | [] => (Ok [], rs)
  | x :: l' =>
      match f x rs with
      | (Ok y, rs1) =>
          match for_each f l' rs1 with
          | (Ok ys, rs2) => (Ok (y :: ys), rs2)
          | (Raise e, rs2) => (Raise e, rs2)
          end
      | (Raise e, rs1) => (Raise e, rs1)
      end
  end.

(** [new_explainer] stands for the constructor [LimeTextExplainer], [rs]
    for the random state the new explainer starts from. *)
Definition generate_incident_log
  (new_explainer : list label -> LimeTextExplainer)
  (events : list event) (pipeline : Pipeline) (class_names : list label)
  (rs : RandomState) : result (list entry) * RandomState :=
  let explainer := new_explainer class_names in
  for_each (log_entry pipeline class_names explainer) events rs.

(** *** Quantities the statements on explanations speak about *)

(** 1e-6 *)
Definition tolerance : Q := (1 # 1000000)%Q.

Definition sums_to_one (l : list Q) : Prop :=
  (Qabs (Summarize.sumQ l - 1) <= tolerance)%Q.

(** What a fitted classifier promises of [predict_proba] on one text: one
    row, one probability per class name, summing to 1 within 1e-6. *)
Definition proba_contract (pipeline : Pipeline) (class_names : list label)
  : Prop :=
  forall text, exists row,
    predict_proba pipeline [text] = Ok [row]
    /\ List.length row = List.length class_names
    /\ sums_to_one row.




(** The sampling of the explainer gives the same result from every random
    state. *)
Definition sampling_is_fixed (pipeline : Pipeline)
  (explainer : LimeTextExplainer) : Prop :=
  forall text num_features rs1 rs2,
    fst (explain_instance explainer text (predict_proba pipeline)
           num_features rs1)
    = fst (explain_instance explainer text (predict_proba pipeline)
             num_features rs2).

(** [phrase] is [name] cut before its first ["="], the whole of [name]
    when it has none. *)
Definition cut_at_first_equals (name phrase : string) : Prop :=
  (contains "=" name = false /\ phrase = name)
  \/ (contains "=" phrase = false
      /\ exists rest, name = (phrase ++ String "=" rest)%string).

(** The summary of an entry, from the fields of the entry and the phrases
    it lists. *)
Definition summary_of (en : entry) (phrases : list string) : string :=
  ("Incident at " ++ entry_location en ++ " on " ++ entry_timestamp en
   ++ ": classified as " ++ predicted_severity en
   ++ ". Key contributing phrases: "
   ++ String.concat ", " phrases ++ ".")%string.

End Logger.

(** ** Quantities for further statements on the aggregation *)

Module SummarizeAux.
Import PyStr PyDict Summarize.

(** [rc_scores[rc]] and [rc_counts[rc]], read as the defaultdicts give
    them. *)
Definition score_of (a : acc) (rc : string) : Q := get 0%Q rc (rc_scores a).
Definition count_of (a : acc) (rc : string) : Z := get 0%Z rc (rc_counts a).

(** Is the feature credited to the bucket [rc]? *)
Definition credited_to (f : feat) (rc : string) : bool :=
  let m := match_root_cause (token_of f) in
  negb (skipped (token_of f))
  && match m with
     | [] => String.eqb rc "Other"
     | _ => in_set rc m
     end.

Definition delta (rc : string) (f : feat) : Q :=
  if credited_to f rc then abs_weight f else 0%Q.

Definition sumZ (l : list Z) : Z := fold_right Z.add 0%Z l.

(** The number of credits one feature gives. *)
Definition credits (f : feat) : nat :=
  if skipped (token_of f) then 0 else credited_buckets f.

Definition bucket_names : list string :=
  map fst ROOT_CAUSE_KEYWORDS ++ ["Other"].

(** What the two accumulators keep while features are scanned. *)
Definition acc_inv (a : acc) : Prop :=
  keys (rc_scores a) = keys (rc_counts a)
  /\ NoDup (keys (rc_scores a))
  /\ Forall (fun k => In k bucket_names) (keys (rc_scores a))
  /\ Forall (fun kv => (0 <= snd kv)%Q) (rc_scores a)
  /\ Forall (fun kv => (1 <= snd kv)%Z) (rc_counts a).

Definition item_of (b : bucket) : string * Q := (name b, aggregated_score b).

(** A string of whitespace only. *)
Fixpoint blank (s : string) : bool :=
  match s with
  | EmptyString => true
  | String c s' => is_space c && blank s'
  end.

End SummarizeAux.

(** ** incident_logger.py: labels and training *)

Module Training.
Import PyStr PyDict Logger.

Definition label_severity
  (description : string) (injured : bool) (witness_count : Z) : label :=
  let desc := lower description in
  if contains "hospital" desc || injured || contains "dizziness" desc
     || contains "fire" desc || contains "chemical" desc
  then "critical"
  else if contains "cut" desc || contains "hit" desc
          || (3 <=? witness_count)%Z
  then "major"
  else "minor".

Definition event_label (e : event) : label :=
  label_severity (description e) (injured e) (witness_count e).

(** [pipeline.named_steps["logisticregression"]] *)
Definition named_steps_item (pipeline : Pipeline) (k : string)
  : result LogisticRegression :=
  r <- named_steps_get pipeline k ;;
  match r with
  | Some clf => Ok clf
  | None => Raise (Exception "KeyError")
  end.

(** [fit] stands for building the pipeline and calling [pipeline.fit]; it
    gives the fitted pipeline.  [list_set] stands for [list(set(...))],
    whose order Python does not fix. *)
Definition train_text_classifier
  (fit : list string -> list label -> result Pipeline)
  (list_set : list label -> list label)
  (events : list event) : result (Pipeline * list label) :=
  let texts := map description events in
  let labels := map event_label events in
  pipeline <- fit texts labels ;;
  let classes :=
    match (final_clf <- named_steps_item pipeline "logisticregression" ;;
           classes_ final_clf) with
    | Ok cs => cs
    | Raise _ => list_set labels
    end in
  Ok (pipeline, classes).

(** The note that [main] adds to a training description. *)
Definition slippery_note : string := "; additional note: slippery".

(** [if random.random() < 0.1: ev["description"] += ...], for the draw
    [r]. *)
Definition perturb (r : Q) (e : event) : event :=
  if negb (Qle_bool (1 # 10)%Q r)
  then mkEvent (id e) (timestamp e) (location e)
               (description e ++ slippery_note)%string
               (witness_count e) (injured e)
  else e.

(** The training events of [main]: three copies of every event.  [draws k]
    is the result of the [k]-th call of [random.random()] in the loop. *)
Fixpoint train_events_from (draws : nat -> Q) (k : nat) (events : list event)
  : list event :=
  match events with
  | [] => []
  | e :: events' =>
      map (fun j => perturb (draws (k + j)) e) (seq 0 3)
      ++ train_events_from draws (k + 3) events'
  end.

Definition train_events (draws : nat -> Q) (events : list event)
  : list event :=
  train_events_from draws 0 events.

(** *** Quantities the statements speak about *)

(** The severities in order. *)
Definition rank (l : label) : nat :=
  if String.eqb l "critical" then 2
  else if String.eqb l "major" then 1 else 0.

(** The entry keeps the fields of its event. *)
Definition entry_of (pipeline : Pipeline) (e : event) (en : entry) : Prop :=
  entry_id en = id e /\ entry_timestamp en = timestamp e
  /\ entry_location en = location e /\ entry_description en = description e
  /\ entry_witness_count en = witness_count e
  /\ entry_injured en = injured e
  /\ exists preds,
       predict pipeline [description e] = Ok (predicted_severity en :: preds).

(** The character [c] does not occur in [s]. *)
Fixpoint no_char (c : ascii) (s : string) : bool :=
  match s with
  | EmptyString => true
  | String x s' => negb (Ascii.eqb x c) && no_char c s'
  end.

End Training.

(** ** Sample inputs *)

Module Samples.
Import Summarize.

Definition forklift_feat : feat := mkFeat (Some " Forklift ") (Some (-4 # 5)%Q).
Definition dizziness_feat : feat := mkFeat (Some "dizziness") (Some (3 # 10)%Q).
Definition the_feat : feat := mkFeat (Some "the") (Some (1 # 2)%Q).
Definition the_incident : incident := mkIncident (Some [the_feat]).
Definition tie_incident : incident :=
  mkIncident (Some [mkFeat (Some "slip") (Some 1%Q);
                    mkFeat (Some "box") (Some 1%Q)]).

Definition blank_feat : feat := mkFeat (Some "  ") (Some (7 # 10)%Q).

Definition tie_incident_swapped : incident :=
  mkIncident (Some [mkFeat (Some "box") (Some 1%Q);
                    mkFeat (Some "slip") (Some 1%Q)]).

(** A fitted three-class pipeline and an explainer, as stubs. *)
Import Logger.

Definition class_names3 : list label := ["critical"; "major"; "minor"].

Definition pipeline3 : Pipeline :=
  mkPipeline
    (fun _ => Ok [[(1 # 2)%Q; (3 # 10)%Q; (1 # 5)%Q]])
    (fun _ => Ok ["critical"])
    (fun _ => Ok (Some (mkClf (Ok class_names3)))).

(** An explanation that holds class 1 only, with two features of equal
    absolute weight. *)
Definition exp_class1 : LimeExplanation :=
  mkExp [(1%Z, [(0%Z, (1 # 2)%Q); (1%Z, (-1 # 2)%Q)])]
        (fun i => if (i =? 1)%Z
                  then Ok [("motor", (1 # 2)%Q); ("alarm", (-1 # 2)%Q)]
                  else Raise (Exception "KeyError")).

Definition explainer_class1 : LimeTextExplainer :=
  mkExplainer (fun _ _ _ rs => (Ok exp_class1, N.succ rs)).

(** An explainer that rejects a text without tokens. *)
Definition explainer_strict : LimeTextExplainer :=
  mkExplainer (fun text _ _ rs =>
                 match PyStr.split text with
                 | [] => (Raise (Exception "ValueError"), rs)
                 | _ => (Ok exp_class1, N.succ rs)
                 end).

(** An explainer whose weights come from its random state. *)
Definition exp_drawn (rs : RandomState) : LimeExplanation :=
  mkExp [(1%Z, [(0%Z, (1 # N.succ_pos rs)%Q)])]
        (fun i => if (i =? 1)%Z
                  then Ok [("alarm", (1 # N.succ_pos rs)%Q)]
                  else Raise (Exception "KeyError")).

Definition explainer_drawn : LimeTextExplainer :=
  mkExplainer (fun _ _ _ rs => (Ok (exp_drawn rs), N.succ rs)).

Definition new_explainer_drawn (_ : list label) : LimeTextExplainer :=
  explainer_drawn.



Definition new_explainer_class1 (_ : list label) : LimeTextExplainer :=
  explainer_class1.

Definition fire_event : event :=
  mkEvent "e1" "2024-01-01T00:00:00" "Rooftop"
          "Fire alarm triggered by overheated motor" 2%Z false.

Definition ladder_event : event :=
  mkEvent "e2" "2024-01-02T00:00:00" "Warehouse A"
          "Ladder slipped during maintenance task" 1%Z false.

Definition empty_event : event :=
  mkEvent "e3" "2024-01-03T00:00:00" "Office Area" "" 0%Z false.

Definition new_explainer_strict (_ : list label) : LimeTextExplainer :=
  explainer_strict.

(** A pipeline that predicts the class of index 1. *)
Definition pipeline_major : Pipeline :=
  mkPipeline
    (fun _ => Ok [[(1 # 5)%Q; (1 # 2)%Q; (3 # 10)%Q]])
    (fun _ => Ok ["major"])
    (fun _ => Ok (Some (mkClf (Ok class_names3)))).

Definition fire_log : list entry :=
  match fst (generate_incident_log new_explainer_class1 [fire_event]
               pipeline3 class_names3 0%N) with
  | Ok log => log
  | Raise _ => []
  end.

End Samples.

(** * Verification *)

Import PyStr PyDict Summarize Samples.

Example split_ex :
  split "  wet_floor  box cutter " = ["wet_floor"; "box"; "cutter"].
Proof. reflexivity. Qed.

Example strip_ex : strip "  a b  " = "a b".
Proof. reflexivity. Qed.

(** Two explanations, one feature each, against the taxonomy. *)
Example aggregate_ex :
  aggregate
    [mkIncident (Some [mkFeat (Some "ladder") (Some (3 # 10)%Q)]);
     mkIncident (Some [mkFeat (Some "forklift") (Some (-4 # 5)%Q)])]
  = [mkBucket "Equipment / Forklift" (4 # 5)%Q 1%Z;
     mkBucket "Maintenance/Fall" (3 # 10)%Q 1%Z].
Proof. reflexivity. Qed.

Example match_ex :
  match_root_cause "Box Cutter" = ["Falling objects"; "Cuts/Sharp object"].
Proof. reflexivity. Qed.

(** ** Facts on the string primitives *)

Module PyStrFacts.
Import PyStr.

Lemma sapp_nil_r (s : string) : (s ++ "")%string = s.
Proof. induction s as [|c s IH]; simpl; [reflexivity | now rewrite IH]. Qed.

Lemma sapp_assoc (a b c : string) :
  ((a ++ b) ++ c)%string = (a ++ b ++ c)%string.
Proof. induction a as [|x a IH]; simpl; [reflexivity | now rewrite IH]. Qed.

Lemma prefix_app (p t : string) :
  prefix p t = true <-> exists b, t = (p ++ b)%string.
Proof.
  revert t; induction p as [|c p IH]; intros t.
  - destruct t; simpl; split; intros; eauto.
  - destruct t as [|d t]; simpl.
    + split; [discriminate | intros [b H]; discriminate].
    + destruct (ascii_dec c d) as [->|Hne].
      * rewrite IH. split; intros [b H]; exists b; congruence.
      * split; [discriminate | intros [b H]; congruence].
Qed.

Lemma contains_Sub (p t : string) : contains p t = true <-> Sub p t.
Proof.
  induction t as [|c t IH].
  - cbn [contains]. rewrite orb_false_r, prefix_app. split.
    + intros [b H]. now exists "", b.
    + intros [a [b H]]. destruct a; simpl in H; [now exists b | discriminate].
  - cbn [contains]. rewrite orb_true_iff, prefix_app, IH. split.
    + intros [[b H] | [a [b H]]].
      * now exists "", b.
      * exists (String c a), b. simpl. now rewrite H.
    + intros [a [b H]]. destruct a as [|d a]; simpl in H.
      * left. now exists b.
      * right. exists a, b. congruence.
Qed.

Lemma Sub_trans (p q t : string) : Sub p q -> Sub q t -> Sub p t.
Proof.
  intros [a [b Hq]] [a' [b' Ht]]. subst.
  exists (a' ++ a)%string, (b ++ b')%string.
  now rewrite !sapp_assoc.
Qed.

Lemma lower_app (a b : string) :
  lower (a ++ b) = (lower a ++ lower b)%string.
Proof. induction a as [|c a IH]; simpl; [reflexivity | now rewrite IH]. Qed.

Lemma Sub_lower (p t : string) : Sub p t -> Sub (lower p) (lower t).
Proof.
  intros [a [b H]]. subst. exists (lower a), (lower b).
  now rewrite !lower_app.
Qed.

Lemma rev_string_app (acc s : string) :
  rev_string acc s = (rev_string "" s ++ acc)%string.
Proof.
  revert acc; induction s as [|c s IH]; intros acc; simpl.
  - reflexivity.
  - rewrite IH, (IH (String c "")), sapp_assoc. reflexivity.
Qed.

Lemma no_space_app (a b : string) :
  no_space (a ++ b) = no_space a && no_space b.
Proof.
  induction a as [|c a IH]; simpl; [reflexivity|].
  now rewrite IH, andb_assoc.
Qed.

Lemma no_space_rev (s : string) : no_space (rev_string "" s) = no_space s.
Proof.
  induction s as [|c s IH]; simpl; [reflexivity|].
  rewrite rev_string_app, no_space_app, IH. simpl.
  rewrite andb_true_r. apply andb_comm.
Qed.

Lemma flush_In (cur piece : string) :
  In piece (flush cur) -> piece = rev_string "" cur.
Proof.
  destruct cur; cbn [flush In]; [contradiction|].
  now intros [<-|[]].
Qed.

(** Every word of [split] is a whitespace-free piece of the text. *)
Lemma split_from_pieces (s cur piece : string) :
  no_space cur = true ->
  In piece (split_from cur s) ->
  Sub piece (rev_string "" cur ++ s) /\ no_space piece = true.
Proof.
  revert cur; induction s as [|c s IH]; intros cur Hcur Hin.
  - cbn [split_from] in Hin. apply flush_In in Hin. subst piece. split.
    + exists "", "". simpl. now rewrite !sapp_nil_r.
    + now rewrite no_space_rev.
  - cbn [split_from] in Hin. destruct (is_space c) eqn:Hc.
    + apply in_app_or in Hin. destruct Hin as [Hin|Hin].
      * apply flush_In in Hin. subst piece. split.
        -- now exists "", (String c s).
        -- now rewrite no_space_rev.
      * destruct (IH "" eq_refl Hin) as [[a [b H]] Hp]. simpl in H.
        split; [|assumption].
        exists (rev_string "" cur ++ String c a)%string, b.
        rewrite sapp_assoc. simpl. now rewrite H.
    + assert (Hcur' : no_space (String c cur) = true)
        by (simpl; now rewrite Hc, Hcur).
      destruct (IH _ Hcur' Hin) as [[a [b H]] Hp]. split; [|assumption].
      exists a, b. rewrite <- H. simpl.
      rewrite (rev_string_app (String c "")), sapp_assoc. reflexivity.
Qed.

Lemma split_pieces (s piece : string) :
  In piece (split s) -> Sub piece s /\ no_space piece = true.
Proof. intros H. exact (split_from_pieces s "" piece eq_refl H). Qed.

Lemma replace_char_app_inv (x y : ascii) (t u v : string) :
  replace_char x y t = (u ++ v)%string ->
  exists u' v', t = (u' ++ v')%string /\
                replace_char x y u' = u /\ replace_char x y v' = v.
Proof.
  revert t; induction u as [|c u IH]; intros t H.
  - exists "", t. auto.
  - destruct t as [|d t]; simpl in H; [discriminate|].
    injection H as Hc Ht. destruct (IH _ Ht) as [u' [v' [-> [Hu Hv]]]].
    exists (String d u'), v'. simpl. now rewrite Hu, Hc.
Qed.

(** A whitespace-free string is untouched by replacing a character with a
    whitespace. *)
Lemma replace_char_no_space (x y : ascii) (t : string) :
  is_space y = true ->
  no_space (replace_char x y t) = true -> replace_char x y t = t.
Proof.
  intros Hy. induction t as [|c t IH]; simpl; [reflexivity|].
  destruct (Ascii.eqb c x).
  - rewrite Hy. discriminate.
  - intros H. apply andb_true_iff in H. destruct H as [_ H].
    now rewrite IH.
Qed.

Lemma Sub_replace_char (x y : ascii) (p t : string) :
  is_space y = true -> no_space p = true ->
  Sub p (replace_char x y t) -> Sub p t.
Proof.
  intros Hy Hp [a [b H]].
  destruct (replace_char_app_inv _ _ _ _ _ H) as [a' [r [-> [_ Hr]]]].
  destruct (replace_char_app_inv _ _ _ _ _ Hr) as [p' [b' [-> [Hp' _]]]].
  exists a', b'. rewrite <- Hp' in Hp |- *.
  now rewrite (replace_char_no_space _ _ _ Hy Hp).
Qed.

End PyStrFacts.

(** ** Facts on dictionaries *)

Module PyDictFacts.
Import PyDict.

Section Upd.
Context {V : Type} (dflt : V) (f : V -> V).

Lemma get_upd_same (k : string) (d : dict V) :
  get dflt k (upd dflt f k d) = f (get dflt k d).
Proof.
  induction d as [|[k' v] d IH]; simpl.
  - now rewrite String.eqb_refl.
  - destruct (String.eqb k' k) eqn:E; simpl; rewrite E; auto.
Qed.

Lemma get_upd_other (k k' : string) (d : dict V) :
  k <> k' -> get dflt k' (upd dflt f k d) = get dflt k' d.
Proof.
  intros Hne. induction d as [|[k'' v] d IH]; simpl.
  - apply String.eqb_neq in Hne. now rewrite Hne.
  - destruct (String.eqb k'' k) eqn:E; simpl.
    + apply String.eqb_eq in E. subst k''.
      apply String.eqb_neq in Hne. now rewrite Hne.
    + now rewrite IH.
Qed.

(** An update keeps the keys in place and puts a new key last. *)
Lemma keys_upd (k : string) (d : dict V) :
  keys (upd dflt f k d)
  = if existsb (fun k' => String.eqb k' k) (keys d)
    then keys d else keys d ++ [k].
Proof.
  unfold keys. induction d as [|[k' v] d IH]; simpl; [reflexivity|].
  destruct (String.eqb k' k); simpl; [reflexivity|].
  rewrite IH. now destruct (existsb _ _).
Qed.

End Upd.

End PyDictFacts.

(** ** The aggregation of summarize_root_causes.py *)

Module SummarizeFacts.
Import PyStrFacts PyDictFacts.

(** *** Matching *)

(** The inner loop is substring containment of some keyword. *)
Lemma any_keyword_in_Sub (kws : list string) (t : string) :
  any_keyword_in kws t = true <-> exists kw, In kw kws /\ Sub kw t.
Proof.
  unfold any_keyword_in. rewrite existsb_exists.
  split; intros [kw [H1 H2]]; exists kw; split; auto; now apply contains_Sub.
Qed.

Lemma any_keyword_in_mono (kws : list string) (p t : string) :
  Sub p t -> any_keyword_in kws p = true -> any_keyword_in kws t = true.
Proof.
  unfold any_keyword_in. intros Hsub H.
  apply existsb_exists in H. destruct H as [kw [Hin Hkw]].
  apply existsb_exists. exists kw. split; [assumption|].
  apply contains_Sub. apply contains_Sub in Hkw.
  exact (Sub_trans _ _ _ Hkw Hsub).
Qed.

Lemma match_in_In (tax : list (string * list string)) (t rc : string) :
  In rc (match_in tax t) <->
  exists kws, In (rc, kws) tax /\ any_keyword_in kws t = true.
Proof.
  induction tax as [|[rc' kws'] tax IH]; simpl.
  - split; [contradiction | intros [? [[] _]]].
  - destruct (any_keyword_in kws' t) eqn:E; simpl; rewrite IH; split.
    + intros [<-|[kws [H1 H2]]]; [exists kws'; auto | exists kws; auto].
    + intros [kws [[H|H] H2]]; [left; congruence | right; eauto].
    + intros [kws [H1 H2]]; exists kws; auto.
    + intros [kws [[H|H] H2]]; [congruence | eauto].
Qed.

Lemma match_in_NoDup (tax : list (string * list string)) (t : string) :
  NoDup (map fst tax) -> NoDup (match_in tax t).
Proof.
  induction tax as [|[rc kws] tax IH]; simpl; intros H.
  - constructor.
  - inversion H as [|? ? Hnin Hnd]; subst.
    destruct (any_keyword_in kws t); [|auto].
    constructor; [|auto].
    intros Hin. apply Hnin. apply match_in_In in Hin.
    destruct Hin as [kws' [Hin _]].
    change rc with (fst (rc, kws')). now apply in_map.
Qed.

Lemma taxonomy_NoDup : NoDup (map fst ROOT_CAUSE_KEYWORDS).
Proof.
  simpl. repeat (constructor; [simpl; intuition discriminate|]). constructor.
Qed.

Lemma match_root_cause_NoDup (token : string) :
  NoDup (match_root_cause token).
Proof. apply match_in_NoDup, taxonomy_NoDup. Qed.

Lemma match_in_nil_mono (tax : list (string * list string)) (p t : string) :
  Sub p t -> match_in tax t = [] -> match_in tax p = [].
Proof.
  intros Hsub Ht. destruct (match_in tax p) as [|rc l] eqn:E; [reflexivity|].
  assert (Hin : In rc (match_in tax p)) by (rewrite E; now left).
  apply match_in_In in Hin. destruct Hin as [kws [H1 H2]].
  assert (Hin' : In rc (match_in tax t)).
  { apply match_in_In. exists kws. split; [assumption|].
    exact (any_keyword_in_mono _ _ _ Hsub H2). }
  rewrite Ht in Hin'. contradiction.
Qed.

Lemma subtoks_Sub (token st : string) : In st (subtoks token) -> Sub st token.
Proof.
  unfold subtoks. intros H. apply filter_In in H. destruct H as [H _].
  apply split_pieces in H. destruct H as [Hsub Hns].
  apply (Sub_replace_char "_" " "); [reflexivity | exact Hns | exact Hsub].
Qed.

(** A sub-token is a piece of the token, so the retry on sub-tokens never
    finds a bucket that the token itself did not match. *)
Lemma first_match_dead (token : string) :
  match_root_cause token = [] -> first_match (subtoks token) = [].
Proof.
  intros Hnil.
  assert (H : forall st, In st (subtoks token) -> match_root_cause st = []).
  { intros st Hin. unfold match_root_cause in *.
    apply (match_in_nil_mono _ (lower st) (lower token)); [|assumption].
    apply Sub_lower, subtoks_Sub, Hin. }
  induction (subtoks token) as [|st sts IH]; simpl; [reflexivity|].
  rewrite (H st (or_introl eq_refl)). apply IH.
  intros st' Hin. apply H. now right.
Qed.

Lemma resolve_match (token : string) : resolve token = match_root_cause token.
Proof.
  unfold resolve. destruct (match_root_cause token) eqn:E; [|reflexivity].
  now apply first_match_dead.
Qed.

Lemma skipped_no_match (token : string) :
  skipped token = true -> match_root_cause token = [].
Proof.
  unfold skipped. intros H. apply orb_true_iff in H. destruct H as [H|H].
  - destruct token; [reflexivity | discriminate].
  - unfold match_root_cause. unfold in_set, STOP_WORDS in H. simpl in H.
    repeat (apply orb_true_iff in H; destruct H as [H|H]);
      try discriminate;
      apply String.eqb_eq in H; rewrite H; reflexivity.
Qed.

(** *** One credit, and a run of credits *)

Lemma credit_score_same (w : Q) (a : acc) (rc : string) :
  get 0%Q rc (rc_scores (credit w a rc)) = (get 0%Q rc (rc_scores a) + w)%Q.
Proof.
  unfold credit; simpl. exact (get_upd_same 0%Q (fun s => (s + w)%Q) rc _).
Qed.

Lemma credit_count_same (w : Q) (a : acc) (rc : string) :
  get 0%Z rc (rc_counts (credit w a rc)) = (get 0%Z rc (rc_counts a) + 1)%Z.
Proof.
  unfold credit; simpl. exact (get_upd_same 0%Z (fun c => (c + 1)%Z) rc _).
Qed.

Lemma credit_score_other (w : Q) (a : acc) (rc rc' : string) :
  rc <> rc' ->
  get 0%Q rc' (rc_scores (credit w a rc)) = get 0%Q rc' (rc_scores a).
Proof. intros H. unfold credit; simpl. now apply get_upd_other. Qed.

Lemma credit_count_other (w : Q) (a : acc) (rc rc' : string) :
  rc <> rc' ->
  get 0%Z rc' (rc_counts (credit w a rc)) = get 0%Z rc' (rc_counts a).
Proof. intros H. unfold credit; simpl. now apply get_upd_other. Qed.

Lemma fold_credit_notin (w : Q) (l : list string) (a : acc) (rc : string) :
  ~ In rc l ->
  get 0%Q rc (rc_scores (fold_left (credit w) l a)) = get 0%Q rc (rc_scores a)
  /\ get 0%Z rc (rc_counts (fold_left (credit w) l a))
     = get 0%Z rc (rc_counts a).
Proof.
  revert a; induction l as [|x l IH]; intros a Hnin; simpl; [auto|].
  assert (Hx : x <> rc) by (intros ->; apply Hnin; now left).
  destruct (IH (credit w a x)) as [H1 H2]; [intros H; apply Hnin; now right|].
  rewrite H1, H2. split.
  - now apply credit_score_other.
  - now apply credit_count_other.
Qed.

Lemma fold_credit_in (w : Q) (l : list string) (a : acc) (rc : string) :
  NoDup l -> In rc l ->
  get 0%Q rc (rc_scores (fold_left (credit w) l a))
  = (get 0%Q rc (rc_scores a) + w)%Q
  /\ get 0%Z rc (rc_counts (fold_left (credit w) l a))
     = (get 0%Z rc (rc_counts a) + 1)%Z.
Proof.
  revert a; induction l as [|x l IH]; intros a Hnd Hin; [contradiction|].
  inversion Hnd as [|? ? Hnin Hnd']; subst. simpl.
  destruct (string_dec x rc) as [->|Hne].
  - destruct (fold_credit_notin w l (credit w a rc) rc Hnin) as [H1 H2].
    rewrite H1, H2. split.
    + apply credit_score_same.
    + apply credit_count_same.
  - destruct Hin as [Heq|Hin]; [contradiction|].
    destruct (IH (credit w a x) Hnd' Hin) as [H1 H2].
    rewrite H1, H2. split.
    + now rewrite credit_score_other.
    + now rewrite credit_count_other.
Qed.

(** What [step] does, by cases of the code. *)
Lemma step_skipped (a : acc) (f : feat) :
  skipped (token_of f) = true -> step a f = a.
Proof. unfold step. now intros ->. Qed.

Lemma step_other (a : acc) (f : feat) :
  skipped (token_of f) = false -> match_root_cause (token_of f) = [] ->
  step a f = credit (abs_weight f) a "Other".
Proof. unfold step. intros -> H. now rewrite resolve_match, H. Qed.

Lemma step_matched (a : acc) (f : feat) :
  match_root_cause (token_of f) <> [] ->
  step a f
  = fold_left (credit (abs_weight f)) (match_root_cause (token_of f)) a.
Proof.
  intros H. unfold step.
  destruct (skipped (token_of f)) eqn:E.
  - apply skipped_no_match in E. contradiction.
  - rewrite resolve_match.
    destruct (match_root_cause (token_of f)); [contradiction | reflexivity].
Qed.

Lemma any_keyword_in_false_nil (t : string) :
  (forall rc kws, In (rc, kws) ROOT_CAUSE_KEYWORDS ->
                  any_keyword_in kws t = false) ->
  match_in ROOT_CAUSE_KEYWORDS t = [].
Proof.
  intros H. destruct (match_in ROOT_CAUSE_KEYWORDS t) as [|rc l] eqn:E;
    [reflexivity|].
  assert (Hin : In rc (match_in ROOT_CAUSE_KEYWORDS t))
    by (rewrite E; now left).
  apply match_in_In in Hin. destruct Hin as [kws [H1 H2]].
  rewrite (H _ _ H1) in H2. discriminate.
Qed.

(** C5. For every feature and every bucket of the taxonomy: when one of the
    bucket's keywords occurs in the normalised token (stripped, lower-cased)
    as a substring, processing the feature adds the feature's absolute
    weight to the bucket's score and exactly 1 to its count.  The statement
    is per bucket, so a token contained in several buckets credits each. *)
Theorem matching_bucket_is_credited
  (a : acc) (f : feat) (rc : string) (kws : list string) :
  In (rc, kws) ROOT_CAUSE_KEYWORDS ->
  (exists kw, In kw kws /\ Sub kw (lower (token_of f))) ->
  get 0%Q rc (rc_scores (step a f))
  = (get 0%Q rc (rc_scores a) + abs_weight f)%Q
  /\ get 0%Z rc (rc_counts (step a f)) = (get 0%Z rc (rc_counts a) + 1)%Z.
Proof.
  intros Htax [kw [Hkw Hsub]].
  assert (Hin : In rc (match_root_cause (token_of f))).
  { apply match_in_In. exists kws. split; [assumption|].
    apply existsb_exists. exists kw. split; [assumption|].
    now apply contains_Sub. }
  rewrite step_matched.
  - apply fold_credit_in; [apply match_root_cause_NoDup | assumption].
  - intros E. rewrite E in Hin. contradiction.
Qed.

Lemma matching_bucket_is_credited_witness :
  get 0%Q "Equipment / Forklift" (rc_scores (step empty_acc forklift_feat))
  = (get 0%Q "Equipment / Forklift" (rc_scores empty_acc)
     + abs_weight forklift_feat)%Q
  /\ get 0%Z "Equipment / Forklift" (rc_counts (step empty_acc forklift_feat))
     = (get 0%Z "Equipment / Forklift" (rc_counts empty_acc) + 1)%Z.
Proof.
  apply (matching_bucket_is_credited empty_acc forklift_feat
           "Equipment / Forklift"
           ["forklift"; "pallet"; "collided"; "knocked"]).
  - simpl. tauto.
  - exists "forklift". split; [simpl; tauto|]. exists "", "". reflexivity.
Defined.

(** C6.  A feature whose token reaches the matching (it is not skipped: it
    is non-empty after stripping and is not a stop word) and in which no
    keyword of any bucket occurs adds its absolute weight to the score of
    ["Other"] and 1 to the count of ["Other"]. *)
Theorem unmatched_token_goes_to_other (a : acc) (f : feat) :
  skipped (token_of f) = false ->
  (forall rc kws, In (rc, kws) ROOT_CAUSE_KEYWORDS ->
                  any_keyword_in kws (lower (token_of f)) = false) ->
  get 0%Q "Other" (rc_scores (step a f))
  = (get 0%Q "Other" (rc_scores a) + abs_weight f)%Q
  /\ get 0%Z "Other" (rc_counts (step a f))
     = (get 0%Z "Other" (rc_counts a) + 1)%Z.
Proof.
  intros Hsk Hno. rewrite step_other; [|assumption|].
  - split; [apply credit_score_same | apply credit_count_same].
  - now apply any_keyword_in_false_nil.
Qed.

Lemma unmatched_token_goes_to_other_witness :
  get 0%Q "Other" (rc_scores (step empty_acc dizziness_feat))
  = (get 0%Q "Other" (rc_scores empty_acc) + abs_weight dizziness_feat)%Q
  /\ get 0%Z "Other" (rc_counts (step empty_acc dizziness_feat))
     = (get 0%Z "Other" (rc_counts empty_acc) + 1)%Z.
Proof.
  apply (unmatched_token_goes_to_other empty_acc dizziness_feat).
  - reflexivity.
  - intros rc kws H. simpl in H.
    repeat (destruct H as [H|H]; [inversion H; reflexivity|]).
    contradiction.
Defined.

(** *** Conservation of the credited weight *)

Lemma sumQ_upd (w : Q) (k : string) (d : dict Q) :
  (sumQ (values (upd 0 (fun s => s + w) k d)) == sumQ (values d) + w)%Q.
Proof.
  unfold sumQ, values in *.
  induction d as [|[k' v] d IH]; cbn [upd map fold_right snd].
  - ring.
  - destruct (String.eqb k' k); cbn [map fold_right snd].
    + ring.
    + rewrite IH. ring.
Qed.

Lemma sum_credit (w : Q) (a : acc) (rc : string) :
  (sumQ (values (rc_scores (credit w a rc)))
   == sumQ (values (rc_scores a)) + w)%Q.
Proof. unfold credit; simpl. apply sumQ_upd. Qed.

Lemma times_S (n : nat) (q : Q) : (times (S n) q == q + times n q)%Q.
Proof.
  unfold times. rewrite Nat2Z.inj_succ. unfold Z.succ.
  rewrite inject_Z_plus. ring.
Qed.

Lemma sum_fold_credit (w : Q) (l : list string) (a : acc) :
  (sumQ (values (rc_scores (fold_left (credit w) l a)))
   == sumQ (values (rc_scores a)) + times (List.length l) w)%Q.
Proof.
  revert a; induction l as [|x l IH]; intros a.
  - simpl. unfold times. simpl. ring.
  - cbn [fold_left List.length]. rewrite IH, sum_credit, times_S. ring.
Qed.

Lemma sum_step (a : acc) (f : feat) :
  (sumQ (values (rc_scores (step a f)))
   == sumQ (values (rc_scores a)) + contribution f)%Q.
Proof.
  unfold contribution. destruct (skipped (token_of f)) eqn:Hsk.
  - rewrite step_skipped by assumption. ring.
  - unfold full_contribution, credited_buckets.
    destruct (match_root_cause (token_of f)) as [|rc l] eqn:E.
    + rewrite step_other, sum_credit by assumption.
      unfold times. simpl. ring.
    + rewrite step_matched by (rewrite E; discriminate).
      rewrite E, sum_fold_credit. reflexivity.
Qed.

Lemma scan_flat (a : acc) (incidents : list incident) :
  scan a incidents = fold_left step (all_feats incidents) a.
Proof.
  unfold scan, all_feats. revert a.
  induction incidents as [|inc incs IH]; intros a; simpl; [reflexivity|].
  now rewrite fold_left_app, IH.
Qed.

Lemma sum_fold_step (fs : list feat) (a : acc) :
  (sumQ (values (rc_scores (fold_left step fs a)))
   == sumQ (values (rc_scores a)) + sumQ (map contribution fs))%Q.
Proof.
  revert a; induction fs as [|f fs IH]; intros a; simpl.
  - ring.
  - rewrite IH, sum_step. ring.
Qed.

Lemma sum_insert_desc (x : string * Q) (l : list (string * Q)) :
  (sumQ (map snd (insert_desc x l)) == snd x + sumQ (map snd l))%Q.
Proof.
  induction l as [|y l IH]; simpl; [reflexivity|].
  destruct (Qle_bool (snd y) (snd x)); simpl; [reflexivity|].
  rewrite IH. ring.
Qed.

Lemma sum_sorted_desc (l : list (string * Q)) :
  (sumQ (map snd (sorted_desc l)) == sumQ (map snd l))%Q.
Proof.
  induction l as [|x l IH]; simpl; [reflexivity|].
  now rewrite sum_insert_desc, IH.
Qed.

Lemma total_report (a : acc) :
  (total_score (report a) == sumQ (values (rc_scores a)))%Q.
Proof.
  unfold report, values. rewrite <- sum_sorted_desc.
  induction (sorted_desc (rc_scores a)) as [|it l IH]; simpl; [reflexivity|].
  now rewrite IH.
Qed.

(** C1, as the code has it.  The scores of all buckets of the report,
    ["Other"] included, add up to the absolute weights of the features that
    are not skipped, each counted once per bucket it is credited to (every
    matching bucket, or ["Other"] when none matches).  A feature whose
    stripped token is empty or a stop word contributes nothing. *)
Theorem credited_weight_is_conserved (incidents : list incident) :
  (total_score (aggregate incidents)
   == sumQ (map contribution (all_feats incidents)))%Q.
Proof.
  unfold aggregate. rewrite total_report, scan_flat, sum_fold_step.
  simpl. ring.
Qed.

(** C1 as stated fails on a stop word: its weight is in the sum of the
    absolute weights, once, and in no bucket. *)
Lemma stop_word_weight_is_dropped :
  ~ (total_score (aggregate [the_incident])
     == sumQ (map full_contribution (all_feats [the_incident])))%Q
  /\ ~ (total_score (aggregate [the_incident])
        == sumQ (map abs_weight (all_feats [the_incident])))%Q.
Proof. split; vm_compute; discriminate. Qed.

(** *** The order of the report *)

Lemma insert_desc_filter (q : Q) (x : string * Q) (l : list (string * Q)) :
  filter (has_score q) (insert_desc x l) = filter (has_score q) (x :: l).
Proof.
  induction l as [|y l IH]; [reflexivity|].
  cbn [insert_desc]. destruct (Qle_bool (snd y) (snd x)) eqn:E; [reflexivity|].
  cbn [filter] in *. rewrite IH.
  destruct (has_score q x) eqn:Hx; [|reflexivity].
  destruct (has_score q y) eqn:Hy; [|reflexivity].
  exfalso. unfold has_score in Hx, Hy.
  apply Qeq_bool_iff in Hx. apply Qeq_bool_iff in Hy.
  assert (Hle : Qle_bool (snd y) (snd x) = true).
  { apply Qle_bool_iff. rewrite Hx, Hy. apply Qle_refl. }
  congruence.
Qed.

(** The sort is stable: the items of one score keep their order. *)
Lemma sorted_desc_stable (q : Q) (l : list (string * Q)) :
  filter (has_score q) (sorted_desc l) = filter (has_score q) l.
Proof.
  induction l as [|x l IH]; [reflexivity|].
  cbn [sorted_desc fold_right]. fold (sorted_desc l).
  rewrite insert_desc_filter. cbn [filter]. now rewrite IH.
Qed.

Lemma insert_desc_Forall (P : string * Q -> Prop) x l :
  P x -> Forall P l -> Forall P (insert_desc x l).
Proof.
  intros Hx Hl. induction Hl as [|y l Hy Hl IH]; simpl.
  - auto.
  - destruct (Qle_bool (snd y) (snd x)); auto.
Qed.

Lemma insert_desc_sorted (x : string * Q) (l : list (string * Q)) :
  StronglySorted desc_item l -> StronglySorted desc_item (insert_desc x l).
Proof.
  intros Hs. induction Hs as [|y l Hs IH Hall]; simpl.
  - constructor; constructor.
  - destruct (Qle_bool (snd y) (snd x)) eqn:E.
    + apply Qle_bool_iff in E. constructor.
      * now constructor.
      * constructor; [exact E|].
        eapply Forall_impl; [|exact Hall].
        intros z Hz. unfold desc_item in *. now apply Qle_trans with (snd y).
    + constructor; [exact IH|].
      apply insert_desc_Forall; [|exact Hall].
      unfold desc_item. apply Qlt_le_weak, Qnot_le_lt.
      intros Hle. apply Qle_bool_iff in Hle. congruence.
Qed.

Lemma sorted_desc_sorted (l : list (string * Q)) :
  StronglySorted desc_item (sorted_desc l).
Proof.
  induction l as [|x l IH]; simpl; [constructor|].
  now apply insert_desc_sorted.
Qed.

Lemma report_sorted (a : acc) : StronglySorted desc_by_score (report a).
Proof.
  unfold report.
  induction (sorted_desc_sorted (rc_scores a)) as [|x l Hs IH Hall]; simpl.
  - constructor.
  - constructor; [exact IH|].
    apply Forall_map. eapply Forall_impl; [|exact Hall].
    intros y Hy. exact Hy.
Qed.

Lemma report_stable (q : Q) (a : acc) :
  map name (filter (bucket_has_score q) (report a))
  = keys (filter (has_score q) (rc_scores a)).
Proof.
  rewrite <- (sorted_desc_stable q (rc_scores a)). unfold report, keys.
  induction (sorted_desc (rc_scores a)) as [|x l IH]; simpl; [reflexivity|].
  unfold bucket_has_score at 1. unfold has_score at 1. simpl.
  destruct (Qeq_bool (snd x) q); simpl; now rewrite IH.
Qed.

(** C4, as the code has it.  The report is in non-increasing order of
    aggregated_score, and the buckets of one score stand in the order in
    which [rc_scores] holds them, which is the order in which the buckets
    were first credited; the names play no part in the order. *)
Theorem report_sorted_and_stable (incidents : list incident) :
  StronglySorted desc_by_score (aggregate incidents)
  /\ forall q : Q,
       map name (filter (bucket_has_score q) (aggregate incidents))
       = keys (filter (has_score q) (rc_scores (scan empty_acc incidents))).
Proof.
  split.
  - apply report_sorted.
  - intros q. apply report_stable.
Qed.

(** C4 as stated fails on a tie: two buckets of score 1 stay in the order
    in which they were credited, against the lexical order of their names. *)
Lemma tie_not_in_lexical_order :
  aggregate [tie_incident]
  = [mkBucket "Slip/Trip (wet floor)" 1%Q 1%Z;
     mkBucket "Falling objects" 1%Q 1%Z]
  /\ ~ lexical_ties (aggregate [tie_incident]).
Proof.
  split; [reflexivity|].
  intros H. inversion H as [|b l Hall _]; subst.
  inversion Hall as [|b' l' Hb _]; subst.
  specialize (Hb (Qeq_refl _)). vm_compute in Hb. discriminate.
Qed.

End SummarizeFacts.

(** ** The explanation glue of incident_logger.py *)

Module LoggerFacts.
Import Logger.

(** *** The fallback index *)

Lemma insert_asc_In (x z : Z) (l : list Z) :
  In z (insert_asc x l) <-> z = x \/ In z l.
Proof.
  induction l as [|y l IH]; simpl.
  - intuition.
  - destruct (x <=? y)%Z; simpl; [intuition|]. rewrite IH. intuition.
Qed.

Lemma sorted_asc_In (z : Z) (l : list Z) : In z (sorted_asc l) <-> In z l.
Proof.
  induction l as [|x l IH]; simpl; [reflexivity|].
  rewrite insert_asc_In, IH. intuition.
Qed.

Lemma insert_asc_sorted (x : Z) (l : list Z) :
  StronglySorted Z.le l -> StronglySorted Z.le (insert_asc x l).
Proof.
  intros Hs. induction Hs as [|y l Hs IH Hall]; simpl.
  - constructor; constructor.
  - destruct (x <=? y)%Z eqn:E.
    + apply Z.leb_le in E. constructor.
      * now constructor.
      * constructor; [exact E|].
        eapply Forall_impl; [|exact Hall]. intros z Hz. lia.
    + apply Z.leb_gt in E. constructor; [exact IH|].
      apply Forall_forall. intros z Hz. apply insert_asc_In in Hz.
      destruct Hz as [->|Hz]; [lia|].
      rewrite Forall_forall in Hall. now apply Hall.
Qed.

Lemma sorted_asc_sorted (l : list Z) : StronglySorted Z.le (sorted_asc l).
Proof.
  induction l as [|x l IH]; simpl; [constructor|].
  now apply insert_asc_sorted.
Qed.

(** The fallback is the smallest key of [local_exp], and 0 when there is
    none. *)
Lemma fallback_index_spec (exp : LimeExplanation) :
  (local_exp_keys exp = [] -> fallback_index exp = 0%Z)
  /\ (local_exp_keys exp <> [] ->
      In (fallback_index exp) (local_exp_keys exp)
      /\ forall k, In k (local_exp_keys exp) -> (fallback_index exp <= k)%Z).
Proof.
  unfold fallback_index. split.
  - intros ->. reflexivity.
  - intros Hne.
    pose proof (sorted_asc_sorted (local_exp_keys exp)) as Hs.
    pose proof (fun z => sorted_asc_In z (local_exp_keys exp)) as Hin.
    destruct (sorted_asc (local_exp_keys exp)) as [|a l].
    + destruct (local_exp_keys exp) as [|k ks]; [contradiction|].
      destruct (proj2 (Hin k) (or_introl eq_refl)).
    + split.
      * apply Hin. now left.
      * intros k Hk. apply Hin in Hk. destruct Hk as [->|Hk]; [lia|].
        inversion Hs as [|? ? _ Hall]; subst.
        rewrite Forall_forall in Hall. now apply Hall.
Qed.

Lemma pick_label_index_fallback (li : option Z) (exp : LimeExplanation) :
  li = None \/ (exists i, li = Some i /\ ~ In i (local_exp_keys exp)) ->
  pick_label_index li exp = fallback_index exp.
Proof.
  intros [->|[i [-> Hnin]]]; simpl; [reflexivity|].
  destruct (in_keys i exp) eqn:E; [|reflexivity].
  unfold in_keys in E. apply existsb_exists in E.
  destruct E as [k [Hk Heq]]. apply Z.eqb_eq in Heq. subst k. contradiction.
Qed.

(** C10.  When the index of the predicted label cannot be resolved, or is
    not a key of [local_exp], [as_list] is asked for the fallback index: the
    smallest key of [local_exp], 0 when [local_exp] is empty.  The label
    that is returned is [pipeline.predict([text])[0]] all the same. *)
Theorem fallback_to_smallest_index
  (pipeline : Pipeline) (class_names : list label) (text : string)
  (explainer : LimeTextExplainer) (num_features : Z) (rs rs' : RandomState)
  (exp : LimeExplanation) (pred : label) (preds : list label) :
  explain_instance explainer text (predict_proba pipeline) num_features rs
  = (Ok exp, rs') ->
  predict pipeline [text] = Ok (pred :: preds) ->
  (try_label_index pipeline pred = None
   \/ exists i, try_label_index pipeline pred = Some i
                /\ ~ In i (local_exp_keys exp)) ->
  explain_with_lime pipeline class_names text explainer num_features rs
  = (feature_list <- as_list exp (fallback_index exp) ;;
     Ok (pred, map to_feat feature_list, exp),
     rs')
  /\ (local_exp_keys exp = [] -> fallback_index exp = 0%Z)
  /\ (local_exp_keys exp <> [] ->
      In (fallback_index exp) (local_exp_keys exp)
      /\ forall k, In k (local_exp_keys exp) -> (fallback_index exp <= k)%Z).
Proof.
  intros Hexp Hpred Hli. split; [|apply fallback_index_spec].
  unfold explain_with_lime. rewrite Hexp. cbn [bind]. rewrite Hpred.
  cbn [bind item0]. now rewrite (pick_label_index_fallback _ _ Hli).
Qed.

Lemma fallback_to_smallest_index_witness :
  explain_with_lime pipeline3 class_names3 (description fire_event)
    explainer_class1 5%Z 0%N
  = (feature_list <- as_list exp_class1 (fallback_index exp_class1) ;;
     Ok ("critical", map to_feat feature_list, exp_class1),
     1%N)
  /\ (local_exp_keys exp_class1 = [] -> fallback_index exp_class1 = 0%Z)
  /\ (local_exp_keys exp_class1 <> [] ->
      In (fallback_index exp_class1) (local_exp_keys exp_class1)
      /\ forall k, In k (local_exp_keys exp_class1) ->
                   (fallback_index exp_class1 <= k)%Z).
Proof.
  apply (fallback_to_smallest_index pipeline3 class_names3
           (description fire_event) explainer_class1 5%Z 0%N 1%N exp_class1
           "critical" []).
  - reflexivity.
  - reflexivity.
  - right. exists 0%Z. split; [reflexivity|].
    simpl. intros [H|H]; [discriminate H | exact H].
Defined.

(** *** What explain_with_lime returns *)

Lemma explain_with_lime_inv
  (pipeline : Pipeline) (class_names : list label) (text : string)
  (explainer : LimeTextExplainer) (num_features : Z) (rs rs' : RandomState)
  (pred : label) (explanation : list Summarize.feat)
  (exp : LimeExplanation) :
  explain_with_lime pipeline class_names text explainer num_features rs
  = (Ok (pred, explanation, exp), rs') ->
  exists preds feature_list,
    explain_instance explainer text (predict_proba pipeline) num_features rs
    = (Ok exp, rs')
    /\ predict pipeline [text] = Ok (pred :: preds)
    /\ as_list exp (pick_label_index (try_label_index pipeline pred) exp)
       = Ok feature_list
    /\ explanation = map to_feat feature_list.
Proof.
  unfold explain_with_lime. intros H.
  destruct (explain_instance explainer text (predict_proba pipeline)
              num_features rs) as [[exp'|e] rs1]; cbn [bind] in H;
    [|discriminate].
  destruct (predict pipeline [text]) as [[|pred' preds]|e];
    cbn [bind item0] in H; try discriminate.
  destruct (as_list exp' _) as [fl|e] eqn:Hfl; cbn [bind] in H;
    [|discriminate].
  injection H as -> <- -> ->. exists preds, fl. auto.
Qed.

(** *** The ranked features *)






(** *** A text without tokens *)

(** C7, as the code has it.  No text is short-circuited, the empty one
    included: the text goes to [explainer.explain_instance]; when that call
    raises, [explain_with_lime] raises the same exception, and
    [explain_with_lime] returns only with the explanation object that the
    call returned. *)
Theorem explainer_error_propagates
  (pipeline : Pipeline) (class_names : list label) (text : string)
  (explainer : LimeTextExplainer) (num_features : Z) (rs : RandomState) :
  (forall e rs',
      explain_instance explainer text (predict_proba pipeline) num_features
        rs
      = (Raise e, rs') ->
      explain_with_lime pipeline class_names text explainer num_features rs
      = (Raise e, rs'))
  /\ (forall pred explanation exp rs',
        explain_with_lime pipeline class_names text explainer num_features
          rs
        = (Ok (pred, explanation, exp), rs') ->
        explain_instance explainer text (predict_proba pipeline)
          num_features rs
        = (Ok exp, rs')).
Proof.
  split.
  - intros e rs' H. unfold explain_with_lime. rewrite H. reflexivity.
  - intros pred explanation exp rs' H.
    destruct (explain_with_lime_inv _ _ _ _ _ _ _ _ _ _ H)
      as [preds [fl [Hexp _]]].
    exact Hexp.
Qed.

Lemma explainer_error_propagates_witness :
  explain_with_lime pipeline3 class_names3 "" explainer_strict 5%Z 0%N
  = (Raise (Exception "ValueError"), 0%N).
Proof.
  apply (proj1 (explainer_error_propagates pipeline3 class_names3 ""
                  explainer_strict 5%Z 0%N) (Exception "ValueError") 0%N).
  reflexivity.
Defined.

(** C7 as stated fails with an explainer that rejects a text without
    tokens: explaining the empty string raises, and no explanation, empty
    or not, is returned, whatever the random state. *)
Lemma empty_text_raises :
  ~ exists rs pred explanation exp rs',
      explain_with_lime pipeline3 class_names3 "" explainer_strict 5%Z rs
      = (Ok (pred, explanation, exp), rs').
Proof.
  intros [rs [pred [explanation [exp [rs' H]]]]]. discriminate H.
Qed.

(** *** Two runs *)

Lemma log_entry_fst (pipeline : Pipeline) (class_names : list label)
  (explainer : LimeTextExplainer) (e : event) (rs1 rs2 : RandomState) :
  fst (explain_with_lime pipeline class_names (description e) explainer 5%Z
         rs1)
  = fst (explain_with_lime pipeline class_names (description e) explainer
           5%Z rs2) ->
  fst (log_entry pipeline class_names explainer e rs1)
  = fst (log_entry pipeline class_names explainer e rs2).
Proof.
  unfold log_entry.
  destruct (explain_with_lime _ _ _ _ _ rs1) as [r1 s1].
  destruct (explain_with_lime _ _ _ _ _ rs2) as [r2 s2].
  cbn [fst]. now intros ->.
Qed.

Lemma for_each_fst {A B} (f : A -> RandomState -> result B * RandomState) :
  (forall x rs1 rs2, fst (f x rs1) = fst (f x rs2)) ->
  forall l rs1 rs2, fst (for_each f l rs1) = fst (for_each f l rs2).
Proof.
  intros Hf. induction l as [|x l IH]; intros rs1 rs2; cbn [for_each];
    [reflexivity|].
  specialize (Hf x rs1 rs2).
  destruct (f x rs1) as [[y1|e1] s1], (f x rs2) as [[y2|e2] s2];
    cbn [fst] in Hf; try discriminate.
  - injection Hf as ->. specialize (IH s1 s2).
    destruct (for_each f l s1) as [[ys1|x1] t1],
             (for_each f l s2) as [[ys2|x2] t2];
      cbn [fst] in *; congruence.
  - cbn [fst]. congruence.
Qed.

Lemma explain_with_lime_fst
  (pipeline : Pipeline) (class_names : list label) (text : string)
  (explainer : LimeTextExplainer) (num_features : Z)
  (rs1 rs2 : RandomState) :
  fst (explain_instance explainer text (predict_proba pipeline)
         num_features rs1)
  = fst (explain_instance explainer text (predict_proba pipeline)
           num_features rs2) ->
  fst (explain_with_lime pipeline class_names text explainer num_features
         rs1)
  = fst (explain_with_lime pipeline class_names text explainer num_features
           rs2).
Proof.
  unfold explain_with_lime.
  destruct (explain_instance _ _ _ _ rs1) as [r1 s1].
  destruct (explain_instance _ _ _ _ rs2) as [r2 s2].
  cbn [fst]. now intros ->.
Qed.

(** C3, as the code has it.  The code has no seed and no number of samples
    to fix: what it returns for a text is fixed by what the sampling of the
    explainer returns.  Two runs of [explain_with_lime] give the same
    result when [explain_instance] does, whatever the random states; and
    when the sampling of the explainer does not depend on its random state,
    two runs of [generate_incident_log] give the same log.  The code adds
    no randomness of its own. *)
Theorem runs_agree_when_sampling_agrees
  (pipeline : Pipeline) (class_names : list label)
  (explainer : LimeTextExplainer) :
  (forall text num_features rs1 rs2,
      fst (explain_instance explainer text (predict_proba pipeline)
             num_features rs1)
      = fst (explain_instance explainer text (predict_proba pipeline)
               num_features rs2) ->
      fst (explain_with_lime pipeline class_names text explainer
             num_features rs1)
      = fst (explain_with_lime pipeline class_names text explainer
               num_features rs2))
  /\ (sampling_is_fixed pipeline explainer ->
      forall new_explainer events rs1 rs2,
        new_explainer class_names = explainer ->
        fst (generate_incident_log new_explainer events pipeline class_names
               rs1)
        = fst (generate_incident_log new_explainer events pipeline
                 class_names rs2)).
Proof.
  split.
  - intros text num_features rs1 rs2. apply explain_with_lime_fst.
  - intros Hfix new_explainer events rs1 rs2 Hnew.
    unfold generate_incident_log. rewrite Hnew. apply for_each_fst.
    intros e s1 s2. apply log_entry_fst, explain_with_lime_fst, Hfix.
Qed.

Lemma runs_agree_when_sampling_agrees_witness :
  fst (generate_incident_log new_explainer_class1 [fire_event; ladder_event]
         pipeline3 class_names3 0%N)
  = fst (generate_incident_log new_explainer_class1
           [fire_event; ladder_event] pipeline3 class_names3 7%N).
Proof.
  apply (proj2 (runs_agree_when_sampling_agrees pipeline3 class_names3
                  explainer_class1)).
  - intros text num_features rs1 rs2. reflexivity.
  - reflexivity.
Defined.

(** C3 as stated fails: nothing fixes the random state of the explainer,
    and with an explainer whose samples come from it, two runs on one text
    differ; so do, within one run, the explanations of two events of one
    description. *)
Lemma two_runs_differ :
  fst (explain_with_lime pipeline3 class_names3 (description fire_event)
         explainer_drawn 5%Z 0%N)
  <> fst (explain_with_lime pipeline3 class_names3 (description fire_event)
            explainer_drawn 5%Z 1%N)
  /\ exists en1 en2,
       fst (generate_incident_log new_explainer_drawn
              [fire_event; fire_event] pipeline3 class_names3 0%N)
       = Ok [en1; en2]
       /\ explanation en1 <> explanation en2.
Proof.
  split.
  - intros H. vm_compute in H. discriminate H.
  - eexists. eexists. split; [reflexivity|].
    intros H. vm_compute in H. discriminate H.
Qed.

(** *** The predicted-probability mapping *)

Lemma set_fresh {V} (k : string) (v : V) (d : dict V) :
  ~ In k (keys d) -> set k v d = d ++ [(k, v)].
Proof.
  unfold set, keys. induction d as [|[k' v'] d IH]; simpl; intros H.
  - reflexivity.
  - destruct (String.eqb k' k) eqn:E.
    + apply String.eqb_eq in E. tauto.
    + rewrite IH; [reflexivity | tauto].
Qed.

Lemma item_app_here {A} (l1 l2 : list A) (x : A) :
  item (l1 ++ x :: l2) (List.length l1) = Ok x.
Proof.
  unfold item. rewrite nth_error_app2, Nat.sub_diag by lia. reflexivity.
Qed.

Lemma proba_items_combine (cn2 : list label) :
  forall (pr2 : list Q) (cn1 : list label) (pr1 : list Q) (d : dict Q),
    List.length cn1 = List.length pr1 ->
    List.length cn2 = List.length pr2 ->
    NoDup (cn1 ++ cn2) ->
    keys d = cn1 ->
    proba_items (cn1 ++ cn2) (pr1 ++ pr2)
      (seq (List.length cn1) (List.length cn2)) d
    = Ok (d ++ combine cn2 pr2).
Proof.
  induction cn2 as [|k cn2 IH]; intros pr2 cn1 pr1 d H1 H2 Hnd Hk.
  - simpl. now rewrite app_nil_r.
  - destruct pr2 as [|v pr2]; [discriminate|].
    cbn [List.length seq proba_items].
    rewrite item_app_here. cbn [bind].
    rewrite H1, item_app_here. cbn [bind]. rewrite <- H1.
    assert (Hfresh : ~ In k (keys d)).
    { rewrite Hk. apply NoDup_remove_2 in Hnd.
      intros Hin. apply Hnd. apply in_or_app. now left. }
    rewrite (set_fresh _ _ _ Hfresh).
    specialize (IH pr2 (cn1 ++ [k]) (pr1 ++ [v]) (d ++ [(k, v)])).
    rewrite <- !app_assoc in IH. cbn [app] in IH.
    rewrite !length_app in IH. cbn [List.length] in IH.
    rewrite Nat.add_1_r in IH. cbn [combine]. apply IH.
    + lia.
    + simpl in H2. lia.
    + exact Hnd.
    + unfold keys in *. rewrite map_app, Hk. reflexivity.
Qed.

(** With distinct class names and one probability per class, the mapping is
    built, in the order of the classes. *)
Lemma proba_dict_combine (class_names : list label) (proba : list Q) :
  NoDup class_names ->
  List.length proba = List.length class_names ->
  proba_dict class_names proba = Ok (combine class_names proba).
Proof.
  intros Hnd Hlen. unfold proba_dict.
  exact (proba_items_combine class_names proba [] [] [] eq_refl
           (eq_sym Hlen) Hnd eq_refl).
Qed.

(** The entry is built whenever the explanation is, for a classifier that
    gives one probability per class. *)
Lemma log_entry_returns (pipeline : Pipeline) (class_names : list label)
  (explainer : LimeTextExplainer) (e : event) (rs : RandomState) r :
  NoDup class_names -> proba_contract pipeline class_names ->
  fst (explain_with_lime pipeline class_names (description e) explainer 5%Z
         rs)
  = Ok r ->
  exists en, fst (log_entry pipeline class_names explainer e rs) = Ok en.
Proof.
  intros Hnd Hc Hr. unfold log_entry.
  destruct (explain_with_lime _ _ _ _ _ rs) as [r0 rs1]. cbn [fst] in *.
  subst r0. cbn [bind]. destruct r as [[pred expl] exp].
  destruct (Hc (description e)) as [row [Hrow [Hlen Hsum]]].
  rewrite Hrow. cbn [bind item0].
  rewrite (proba_dict_combine _ _ Hnd Hlen). cbn [bind]. eauto.
Qed.

Lemma for_each_Forall {A B} (f : A -> RandomState -> result B * RandomState)
  (P : B -> Prop) :
  (forall x rs y, fst (f x rs) = Ok y -> P y) ->
  forall l rs ys, fst (for_each f l rs) = Ok ys -> Forall P ys.
Proof.
  intros Hf. induction l as [|x l IH]; intros rs ys H; cbn [for_each] in H.
  - injection H as <-. constructor.
  - specialize (Hf x rs).
    destruct (f x rs) as [[y|e] rs1]; cbn [fst] in *; [|discriminate].
    specialize (IH rs1).
    destruct (for_each f l rs1) as [[ys'|e] rs2]; cbn [fst] in *;
      [|discriminate].
    injection H as <-. constructor; eauto.
Qed.

End LoggerFacts.

(** ** More on the aggregation *)

Module SummarizeMore.
Import PyStrFacts PyDictFacts SummarizeFacts SummarizeAux.

(** *** Matching *)

(** X1. [match_root_cause] returns the buckets one of whose keywords occurs in
    the lower-cased token, each once. *)
Theorem match_root_cause_spec (token rc : string) :
  (In rc (match_root_cause token) <->
   exists kws kw, In (rc, kws) ROOT_CAUSE_KEYWORDS /\ In kw kws
                  /\ Sub kw (lower token))
  /\ NoDup (match_root_cause token).
Proof.
  split; [|apply match_root_cause_NoDup].
  unfold match_root_cause. rewrite match_in_In. split.
  - intros [kws [H1 H2]]. apply any_keyword_in_Sub in H2.
    destruct H2 as [kw [H2 H3]]. now exists kws, kw.
  - intros [kws [kw [H1 [H2 H3]]]]. exists kws. split; [assumption|].
    apply any_keyword_in_Sub. now exists kw.
Qed.

Lemma match_root_cause_incl (p t : string) :
  Sub p t -> incl (match_root_cause p) (match_root_cause t).
Proof.
  intros Hsub rc Hin. unfold match_root_cause in *.
  apply match_in_In in Hin. destruct Hin as [kws [H1 H2]].
  apply match_in_In. exists kws. split; [assumption|].
  apply (any_keyword_in_mono kws (lower p)); [|assumption].
  now apply Sub_lower.
Qed.

(** X2. A token matches every bucket that a piece of it matches. *)
Theorem match_root_cause_monotone (p t : string) :
  Sub p t -> incl (match_root_cause p) (match_root_cause t).
Proof. apply match_root_cause_incl. Qed.

Lemma match_root_cause_monotone_witness :
  incl (match_root_cause "Cutter") (match_root_cause "Box_Cutter").
Proof.
  apply (match_root_cause_monotone "Cutter" "Box_Cutter").
  exists "Box_", "". reflexivity.
Defined.

(** X3. The retry on sub-tokens (split on underscores and whitespace) is
    without effect: a sub-token matches no bucket that the token does not
    match, so the buckets credited are those of [match_root_cause] on the
    token. *)
Theorem subtoken_retry_is_dead (token : string) :
  resolve token = match_root_cause token
  /\ forall st, In st (subtoks token) ->
                incl (match_root_cause st) (match_root_cause token).
Proof.
  split; [apply resolve_match|].
  intros st Hin. apply match_root_cause_incl. now apply subtoks_Sub.
Qed.

(** X4. The skip test never discards a token that matches a bucket. *)
Theorem skipped_token_matches_nothing (token : string) :
  skipped token = true -> match_root_cause token = [].
Proof. apply skipped_no_match. Qed.

Lemma skipped_token_matches_nothing_witness : match_root_cause "With" = [].
Proof. apply (skipped_token_matches_nothing "With"). reflexivity. Defined.

(** *** One step, bucket by bucket *)

Lemma step_score (a : acc) (f : feat) (rc : string) :
  score_of (step a f) rc
  = if credited_to f rc then (score_of a rc + abs_weight f)%Q
    else score_of a rc.
Proof.
  unfold score_of, credited_to.
  destruct (skipped (token_of f)) eqn:Hsk; cbn [negb andb].
  - now rewrite step_skipped.
  - destruct (match_root_cause (token_of f)) as [|m ms] eqn:E.
    + rewrite step_other by assumption.
      destruct (String.eqb_spec rc "Other") as [->|Hne].
      * apply credit_score_same.
      * apply credit_score_other. congruence.
    + rewrite step_matched by (rewrite E; discriminate). rewrite E.
      pose proof (match_root_cause_NoDup (token_of f)) as Hnd.
      rewrite E in Hnd.
      destruct (in_set rc (m :: ms)) eqn:Hin.
      * apply fold_credit_in; [assumption|].
        unfold in_set in Hin. apply existsb_exists in Hin.
        destruct Hin as [x [Hx Heq]]. apply String.eqb_eq in Heq.
        now subst x.
      * apply fold_credit_notin. intros H.
        assert (Ht : in_set rc (m :: ms) = true).
        { unfold in_set. apply existsb_exists. exists rc.
          split; [assumption | apply String.eqb_refl]. }
        congruence.
Qed.

Lemma step_count (a : acc) (f : feat) (rc : string) :
  count_of (step a f) rc
  = if credited_to f rc then (count_of a rc + 1)%Z else count_of a rc.
Proof.
  unfold count_of, credited_to.
  destruct (skipped (token_of f)) eqn:Hsk; cbn [negb andb].
  - now rewrite step_skipped.
  - destruct (match_root_cause (token_of f)) as [|m ms] eqn:E.
    + rewrite step_other by assumption.
      destruct (String.eqb_spec rc "Other") as [->|Hne].
      * apply credit_count_same.
      * apply credit_count_other. congruence.
    + rewrite step_matched by (rewrite E; discriminate). rewrite E.
      pose proof (match_root_cause_NoDup (token_of f)) as Hnd.
      rewrite E in Hnd.
      destruct (in_set rc (m :: ms)) eqn:Hin.
      * apply fold_credit_in; [assumption|].
        unfold in_set in Hin. apply existsb_exists in Hin.
        destruct Hin as [x [Hx Heq]]. apply String.eqb_eq in Heq.
        now subst x.
      * apply fold_credit_notin. intros H.
        assert (Ht : in_set rc (m :: ms) = true).
        { unfold in_set. apply existsb_exists. exists rc.
          split; [assumption | apply String.eqb_refl]. }
        congruence.
Qed.

Lemma fold_step_score (fs : list feat) (a : acc) (rc : string) :
  (score_of (fold_left step fs a) rc
   == score_of a rc + sumQ (map (delta rc) fs))%Q.
Proof.
  revert a; induction fs as [|f fs IH]; intros a; cbn [fold_left map].
  - unfold sumQ; cbn [fold_right]. ring.
  - rewrite IH, step_score. unfold sumQ; cbn [fold_right]. unfold delta at 2.
    destruct (credited_to f rc); ring.
Qed.

Lemma fold_step_count (fs : list feat) (a : acc) (rc : string) :
  count_of (fold_left step fs a) rc
  = (count_of a rc
     + Z.of_nat (List.length (filter (fun f => credited_to f rc) fs)))%Z.
Proof.
  revert a; induction fs as [|f fs IH]; intros a; cbn [fold_left filter].
  - cbn [List.length]. lia.
  - rewrite IH, step_count.
    destruct (credited_to f rc); cbn [List.length]; lia.
Qed.

(** X5. After the scan, the score of a bucket is the sum of the absolute
    weights of the features credited to it, and its count is the number of
    those features. *)
Theorem bucket_totals (incidents : list incident) (rc : string) :
  (score_of (scan empty_acc incidents) rc
   == sumQ (map (delta rc) (all_feats incidents)))%Q
  /\ count_of (scan empty_acc incidents) rc
     = Z.of_nat (List.length
                   (filter (fun f => credited_to f rc) (all_feats incidents))).
Proof.
  rewrite scan_flat. split.
  - rewrite fold_step_score. unfold score_of. cbn. ring.
  - rewrite fold_step_count. unfold count_of. cbn. lia.
Qed.

Lemma filter_perm_length {A} (p : A -> bool) (l l' : list A) :
  Permutation l l' -> List.length (filter p l) = List.length (filter p l').
Proof.
  induction 1; cbn [filter].
  - reflexivity.
  - destruct (p x); cbn [List.length]; congruence.
  - destruct (p x), (p y); reflexivity.
  - congruence.
Qed.

(** X6. The count of every bucket depends on which features are scanned,
    not on their order nor on how they are spread over the incidents. *)
Theorem bucket_counts_order_independent
  (incidents incidents' : list incident) (rc : string) :
  Permutation (all_feats incidents) (all_feats incidents') ->
  count_of (scan empty_acc incidents) rc
  = count_of (scan empty_acc incidents') rc.
Proof.
  intros Hp. rewrite !scan_flat, !fold_step_count. f_equal. f_equal.
  now apply filter_perm_length.
Qed.

Lemma bucket_counts_order_independent_witness :
  count_of (scan empty_acc [tie_incident]) "Falling objects"
  = count_of (scan empty_acc [tie_incident_swapped]) "Falling objects".
Proof.
  apply (bucket_counts_order_independent [tie_incident]
           [tie_incident_swapped] "Falling objects").
  simpl. apply perm_swap.
Defined.

(** X7. Scanning more never lowers a score or a count. *)
Theorem scan_never_decreases
  (a : acc) (incidents : list incident) (rc : string) :
  (score_of a rc <= score_of (scan a incidents) rc)%Q
  /\ (count_of a rc <= count_of (scan a incidents) rc)%Z.
Proof.
  rewrite scan_flat. split.
  - rewrite fold_step_score.
    assert (H : (0 <= sumQ (map (delta rc) (all_feats incidents)))%Q).
    { induction (all_feats incidents) as [|f fs IH]; unfold sumQ;
        cbn [map fold_right]; [apply Qle_refl|].
      fold (sumQ (map (delta rc) fs)).
      assert (Hd : (0 <= delta rc f)%Q).
      { unfold delta. destruct (credited_to f rc);
          [apply Qabs_nonneg | apply Qle_refl]. }
      pose proof (Qplus_le_compat _ _ _ _ Hd IH) as H.
      now rewrite Qplus_0_l in H. }
    pose proof (Qplus_le_compat _ _ _ _ (Qle_refl (score_of a rc)) H) as H'.
    now rewrite Qplus_0_r in H'.
  - rewrite fold_step_count. lia.
Qed.

(** X8. The sign of a weight plays no part: a feature and the same feature
    with the opposite weight leave the accumulators in the same state. *)
Theorem sign_of_weight_ignored (a : acc) (token : option string) (w : Q) :
  step a (mkFeat token (Some (- w)%Q)) = step a (mkFeat token (Some w)).
Proof.
  unfold step, token_of, get_feature, get_weight. cbn [feature weight].
  assert (H : Qabs (- w) = Qabs w).
  { destruct w as [n d]. unfold Qabs, Qopp. cbn. now rewrite Z.abs_opp. }
  now rewrite H.
Qed.

(** *** What the accumulators keep *)

Lemma existsb_eqb_In (k : string) (l : list string) :
  existsb (fun k' => String.eqb k' k) l = true <-> In k l.
Proof.
  rewrite existsb_exists. split.
  - intros [x [Hx Heq]]. apply String.eqb_eq in Heq. now subst.
  - intros H. exists k. split; [assumption | apply String.eqb_refl].
Qed.

Lemma upd_Forall {V} (P : V -> Prop) (dflt : V) (f : V -> V)
  (k : string) (d : dict V) :
  P (f dflt) -> (forall v, P v -> P (f v)) ->
  Forall (fun kv => P (snd kv)) d ->
  Forall (fun kv => P (snd kv)) (upd dflt f k d).
Proof.
  intros H0 Hf Hd. induction Hd as [|[k' v] d Hv Hd IH]; simpl.
  - constructor; [exact H0 | constructor].
  - destruct (String.eqb k' k); constructor; cbn [snd] in *; auto.
Qed.

Lemma get_Forall {V} (P : V -> Prop) (dflt : V) (k : string) (d : dict V) :
  In k (keys d) -> Forall (fun kv => P (snd kv)) d -> P (get dflt k d).
Proof.
  unfold keys. intros Hin Hd. induction Hd as [|[k' v] d Hv Hd IH]; simpl.
  - destruct Hin.
  - destruct (String.eqb_spec k' k) as [->|Hne]; [exact Hv|].
    apply IH. destruct Hin as [Heq|Hin]; [contradiction | assumption].
Qed.

Lemma get_values {V} (dflt : V) (d : dict V) :
  NoDup (keys d) -> map (fun k => get dflt k d) (keys d) = values d.
Proof.
  unfold keys, values. induction d as [|[k v] d IH]; intros Hnd;
    [reflexivity|].
  cbn [map fst snd] in *. inversion Hnd as [|? ? Hnin Hnd']; subst.
  cbn [get]. rewrite String.eqb_refl. f_equal.
  rewrite <- (IH Hnd'). apply map_ext_in. intros k' Hk'.
  destruct (String.eqb_spec k k') as [->|Hne]; [contradiction | reflexivity].
Qed.

Lemma keys_upd_NoDup {V} (dflt : V) (f : V -> V) (k : string) (d : dict V) :
  NoDup (keys d) -> NoDup (keys (upd dflt f k d)).
Proof.
  intros Hnd. rewrite keys_upd.
  destruct (existsb _ (keys d)) eqn:E; [assumption|].
  apply (Permutation_NoDup (Permutation_cons_append (keys d) k)).
  constructor; [|assumption].
  intros Hin. apply existsb_eqb_In in Hin. congruence.
Qed.

Lemma keys_upd_Forall {V} (P : string -> Prop) (dflt : V) (f : V -> V)
  (k : string) (d : dict V) :
  P k -> Forall P (keys d) -> Forall P (keys (upd dflt f k d)).
Proof.
  intros Hk Hd. rewrite keys_upd.
  destruct (existsb _ (keys d)); [assumption|].
  apply Forall_app. split; [assumption | constructor; [exact Hk | constructor]].
Qed.

Lemma empty_inv : acc_inv empty_acc.
Proof.
  unfold acc_inv, empty_acc; simpl.
  repeat split; constructor.
Qed.

Lemma credit_inv (w : Q) (a : acc) (rc : string) :
  (0 <= w)%Q -> In rc bucket_names -> acc_inv a -> acc_inv (credit w a rc).
Proof.
  intros Hw Hrc (Hk & Hnd & Hal & Hs & Hc). unfold acc_inv, credit.
  cbn [rc_scores rc_counts]. repeat split.
  - now rewrite !keys_upd, Hk.
  - now apply keys_upd_NoDup.
  - now apply keys_upd_Forall.
  - apply (upd_Forall (fun v => (0 <= v)%Q)); [| |assumption].
    + now rewrite Qplus_0_l.
    + intros v Hv. pose proof (Qplus_le_compat _ _ _ _ Hv Hw) as H.
      now rewrite Qplus_0_l in H.
  - apply (upd_Forall (fun v => (1 <= v)%Z)); [lia | intros; lia | assumption].
Qed.

Lemma fold_credit_inv (w : Q) (l : list string) (a : acc) :
  (0 <= w)%Q -> Forall (fun rc => In rc bucket_names) l ->
  acc_inv a -> acc_inv (fold_left (credit w) l a).
Proof.
  intros Hw Hl. revert a. induction Hl as [|rc l Hrc Hl IH]; intros a Ha.
  - exact Ha.
  - cbn [fold_left]. apply IH. now apply credit_inv.
Qed.

Lemma match_root_cause_names (token : string) :
  Forall (fun rc => In rc bucket_names) (match_root_cause token).
Proof.
  apply Forall_forall. intros rc Hin. unfold match_root_cause in Hin.
  apply match_in_In in Hin. destruct Hin as [kws [Hin _]].
  unfold bucket_names. apply in_or_app. left.
  change rc with (fst (rc, kws)). now apply in_map.
Qed.

Lemma step_inv (a : acc) (f : feat) : acc_inv a -> acc_inv (step a f).
Proof.
  intros Ha. destruct (skipped (token_of f)) eqn:Hsk.
  - now rewrite step_skipped.
  - destruct (match_root_cause (token_of f)) as [|m ms] eqn:E.
    + rewrite step_other by assumption.
      apply credit_inv; [apply Qabs_nonneg | | assumption].
      unfold bucket_names. apply in_or_app. right. now left.
    + rewrite step_matched by (rewrite E; discriminate).
      apply fold_credit_inv; [apply Qabs_nonneg | | assumption].
      apply match_root_cause_names.
Qed.

Lemma scan_inv (a : acc) (incidents : list incident) :
  acc_inv a -> acc_inv (scan a incidents).
Proof.
  rewrite scan_flat. revert a.
  induction (all_feats incidents) as [|f fs IH]; intros a Ha; [exact Ha|].
  cbn [fold_left]. apply IH. now apply step_inv.
Qed.

(** *** The report *)

Lemma insert_desc_perm (x : string * Q) (l : list (string * Q)) :
  Permutation (insert_desc x l) (x :: l).
Proof.
  induction l as [|y l IH]; simpl; [reflexivity|].
  destruct (Qle_bool (snd y) (snd x)); [reflexivity|].
  rewrite IH. apply perm_swap.
Qed.

Lemma sorted_desc_perm (l : list (string * Q)) : Permutation (sorted_desc l) l.
Proof.
  induction l as [|x l IH]; simpl; [reflexivity|].
  now rewrite insert_desc_perm, IH.
Qed.

Lemma report_items (a : acc) :
  map item_of (report a) = sorted_desc (rc_scores a).
Proof.
  unfold report. rewrite map_map. rewrite <- (map_id (sorted_desc _)) at 2.
  apply map_ext. now intros [k v].
Qed.

(** X9. Sorting loses nothing: the report holds the buckets of [rc_scores]
    with their scores, each as often as [rc_scores] does. *)
Theorem report_keeps_every_bucket (incidents : list incident) :
  Permutation (map item_of (aggregate incidents))
              (rc_scores (scan empty_acc incidents)).
Proof. unfold aggregate. rewrite report_items. apply sorted_desc_perm. Qed.

Lemma report_names (a : acc) :
  Permutation (map name (report a)) (keys (rc_scores a)).
Proof.
  unfold report, keys. rewrite map_map. cbn [name].
  apply Permutation_map, sorted_desc_perm.
Qed.

(** X10. Every bucket of the report is a bucket of the taxonomy or ["Other"],
    stands there once, has a score that is not negative and a count of at
    least 1. *)
Theorem reported_buckets_well_formed (incidents : list incident) :
  Forall (fun b => In (name b) bucket_names
                   /\ (0 <= aggregated_score b)%Q
                   /\ (1 <= count b)%Z) (aggregate incidents)
  /\ NoDup (map name (aggregate incidents)).
Proof.
  unfold aggregate.
  destruct (scan_inv empty_acc incidents empty_inv)
    as (Hk & Hnd & Hal & Hs & Hc).
  set (a := scan empty_acc incidents) in *. split.
  - unfold report. apply Forall_map. apply Forall_forall. intros it Hit.
    apply (Permutation_in _ (sorted_desc_perm _)) in Hit. cbn.
    assert (Hkey : In (fst it) (keys (rc_scores a)))
      by (unfold keys; now apply in_map).
    repeat split.
    + rewrite Forall_forall in Hal. now apply Hal.
    + rewrite Forall_forall in Hs. now apply Hs.
    + apply (get_Forall (fun v => (1 <= v)%Z)); [|assumption].
      now rewrite <- Hk.
  - apply (Permutation_NoDup (Permutation_sym (report_names a))). exact Hnd.
Qed.

(** *** Conservation of the counts *)

Lemma sumZ_upd (k : string) (d : dict Z) :
  sumZ (values (upd 0%Z (fun c => (c + 1)%Z) k d))
  = (sumZ (values d) + 1)%Z.
Proof.
  unfold sumZ, values. induction d as [|[k' v] d IH]; simpl; [reflexivity|].
  destruct (String.eqb k' k); simpl; lia.
Qed.

Lemma count_fold_credit (w : Q) (l : list string) (a : acc) :
  sumZ (values (rc_counts (fold_left (credit w) l a)))
  = (sumZ (values (rc_counts a)) + Z.of_nat (List.length l))%Z.
Proof.
  revert a; induction l as [|x l IH]; intros a; cbn [fold_left List.length].
  - lia.
  - rewrite IH. unfold credit at 1. cbn [rc_counts]. rewrite sumZ_upd. lia.
Qed.

Lemma count_step (a : acc) (f : feat) :
  sumZ (values (rc_counts (step a f)))
  = (sumZ (values (rc_counts a)) + Z.of_nat (credits f))%Z.
Proof.
  unfold credits. destruct (skipped (token_of f)) eqn:Hsk.
  - rewrite step_skipped by assumption. lia.
  - unfold credited_buckets.
    destruct (match_root_cause (token_of f)) as [|m ms] eqn:E.
    + rewrite step_other by assumption. unfold credit. cbn [rc_counts].
      rewrite sumZ_upd. reflexivity.
    + rewrite step_matched by (rewrite E; discriminate).
      rewrite E, count_fold_credit. reflexivity.
Qed.

Lemma count_fold_step (fs : list feat) (a : acc) :
  sumZ (values (rc_counts (fold_left step fs a)))
  = (sumZ (values (rc_counts a)) + Z.of_nat (list_sum (map credits fs)))%Z.
Proof.
  revert a; induction fs as [|f fs IH]; intros a; cbn [fold_left map list_sum].
  - cbn. lia.
  - rewrite IH, count_step.
    change (list_sum (credits f :: map credits fs))
      with (credits f + list_sum (map credits fs)).
    lia.
Qed.

Lemma sumZ_perm (l l' : list Z) : Permutation l l' -> sumZ l = sumZ l'.
Proof. unfold sumZ. induction 1; cbn [fold_right]; lia. Qed.

Lemma report_counts (a : acc) :
  acc_inv a -> sumZ (map count (report a)) = sumZ (values (rc_counts a)).
Proof.
  intros (Hk & Hnd & _). unfold report. rewrite map_map. cbn [count].
  rewrite (sumZ_perm _ _
             (Permutation_map (fun it => get 0%Z (fst it) (rc_counts a))
                (sorted_desc_perm (rc_scores a)))).
  rewrite <- (get_values 0%Z (rc_counts a)) by (now rewrite <- Hk).
  rewrite <- Hk. unfold keys. now rewrite map_map.
Qed.

(** X11. The counts of the report add up to the number of credits given: for
    every feature that is not skipped, one per matching bucket, or one for
    ["Other"] when no bucket matches. *)
Theorem credits_are_conserved (incidents : list incident) :
  sumZ (map count (aggregate incidents))
  = Z.of_nat (list_sum (map credits (all_feats incidents))).
Proof.
  unfold aggregate.
  rewrite report_counts by (apply scan_inv, empty_inv).
  rewrite scan_flat, count_fold_step. cbn. lia.
Qed.

(** *** Letter case, blanks and ["Other"] *)

Lemma lower_char_idem (c : ascii) : lower_char (lower_char c) = lower_char c.
Proof.
  destruct c as [b0 b1 b2 b3 b4 b5 b6 b7].
  destruct b0, b1, b2, b3, b4, b5, b6, b7; reflexivity.
Qed.

Lemma is_space_lower_char (c : ascii) : is_space (lower_char c) = is_space c.
Proof.
  destruct c as [b0 b1 b2 b3 b4 b5 b6 b7].
  destruct b0, b1, b2, b3, b4, b5, b6, b7; reflexivity.
Qed.

Lemma lower_idem (s : string) : lower (lower s) = lower s.
Proof.
  induction s as [|c s IH]; cbn [lower]; [reflexivity|].
  now rewrite lower_char_idem, IH.
Qed.

Lemma length_lower (s : string) : String.length (lower s) = String.length s.
Proof. induction s as [|c s IH]; cbn [lower String.length]; congruence. Qed.

Lemma lstrip_lower (s : string) : lstrip (lower s) = lower (lstrip s).
Proof.
  induction s as [|c s IH]; cbn [lower lstrip]; [reflexivity|].
  rewrite is_space_lower_char. destruct (is_space c); [exact IH | reflexivity].
Qed.

Lemma rstrip_lower (s : string) : rstrip (lower s) = lower (rstrip s).
Proof.
  induction s as [|c s IH]; cbn [lower rstrip]; [reflexivity|].
  rewrite IH, is_space_lower_char.
  destruct (rstrip s); cbn [lower]; [|reflexivity].
  destruct (is_space c); reflexivity.
Qed.

Lemma strip_lower (s : string) : strip (lower s) = lower (strip s).
Proof. unfold strip. now rewrite lstrip_lower, rstrip_lower. Qed.

(** X12. The letter case of a token plays no part in the aggregation. *)
Theorem case_of_token_ignored (a : acc) (t : string) (w : option Q) :
  step a (mkFeat (Some (lower t)) w) = step a (mkFeat (Some t) w).
Proof.
  unfold step, token_of, get_feature. cbn [feature].
  rewrite strip_lower. set (tok := strip t).
  assert (Hsk : skipped (lower tok) = skipped tok).
  { unfold skipped. now rewrite length_lower, lower_idem. }
  assert (Hm : resolve (lower tok) = resolve tok).
  { rewrite !resolve_match. unfold match_root_cause. now rewrite lower_idem. }
  now rewrite Hsk, Hm.
Qed.

Lemma lstrip_blank (s : string) : blank s = true -> lstrip s = "".
Proof.
  induction s as [|c s IH]; cbn [blank lstrip]; [reflexivity|].
  intros H. apply andb_true_iff in H. destruct H as [-> H]. now apply IH.
Qed.

(** X13. A feature whose name is missing, empty or made of whitespace is
    ignored, whatever its weight. *)
Theorem blank_feature_is_ignored (a : acc) (f : feat) :
  blank (get_feature f) = true -> step a f = a.
Proof.
  intros H. apply step_skipped. unfold token_of, strip.
  now rewrite (lstrip_blank _ H).
Qed.

Lemma blank_feature_is_ignored_witness : step empty_acc blank_feat = empty_acc.
Proof.
  apply (blank_feature_is_ignored empty_acc blank_feat). reflexivity.
Defined.

Lemma other_not_matched (token : string) :
  ~ In "Other" (match_root_cause token).
Proof.
  intros Hin. unfold match_root_cause in Hin. apply match_in_In in Hin.
  destruct Hin as [kws [Hin _]]. simpl in Hin.
  repeat (destruct Hin as [Hin|Hin]; [discriminate Hin|]). exact Hin.
Qed.

(** X14. ["Other"] and the buckets of the taxonomy exclude each other: a
    feature that raises the count of ["Other"] leaves the score and the count
    of every other bucket as they were. *)
Theorem other_is_exclusive (a : acc) (f : feat) (rc : string) :
  count_of (step a f) "Other" = (count_of a "Other" + 1)%Z ->
  rc <> "Other" ->
  score_of (step a f) rc = score_of a rc
  /\ count_of (step a f) rc = count_of a rc.
Proof.
  intros Hother Hrc. rewrite step_score, step_count.
  rewrite step_count in Hother.
  assert (Hc : credited_to f rc = false).
  { unfold credited_to in *.
    destruct (skipped (token_of f)); cbn [negb andb] in *; [reflexivity|].
    pose proof (other_not_matched (token_of f)) as Hno.
    destruct (match_root_cause (token_of f)) as [|m ms].
    - now apply String.eqb_neq.
    - destruct (in_set "Other" (m :: ms)) eqn:E; [|lia].
      exfalso. apply Hno. unfold in_set in E. apply existsb_exists in E.
      destruct E as [x [Hx Heq]]. apply String.eqb_eq in Heq. now subst x. }
  now rewrite Hc.
Qed.

Lemma other_is_exclusive_witness :
  score_of (step empty_acc dizziness_feat) "Electrical"
  = score_of empty_acc "Electrical"
  /\ count_of (step empty_acc dizziness_feat) "Electrical"
     = count_of empty_acc "Electrical".
Proof.
  apply (other_is_exclusive empty_acc dizziness_feat "Electrical").
  - reflexivity.
  - discriminate.
Defined.

(** *** The rows of the report *)

Lemma get_In_NoDup {V} (dflt : V) (k : string) (v : V) (d : dict V) :
  NoDup (keys d) -> In (k, v) d -> get dflt k d = v.
Proof.
  unfold keys. induction d as [|[k' v'] d IH]; intros Hnd Hin;
    [destruct Hin|].
  cbn [map fst] in Hnd. inversion Hnd as [|? ? Hnin Hnd']; subst.
  cbn [get]. destruct Hin as [Heq|Hin].
  - injection Heq as -> ->. now rewrite String.eqb_refl.
  - destruct (String.eqb_spec k' k) as [->|Hne].
    + exfalso. apply Hnin. change k with (fst (k, v)). now apply in_map.
    + now apply IH.
Qed.

Lemma keys_credit (w : Q) (a : acc) (rc k : string) :
  In k (keys (rc_scores (credit w a rc)))
  <-> In k (keys (rc_scores a)) \/ k = rc.
Proof.
  unfold credit. cbn [rc_scores]. rewrite keys_upd.
  destruct (existsb _ (keys (rc_scores a))) eqn:E.
  - apply existsb_eqb_In in E. split; [auto|].
    intros [H| ->]; assumption.
  - rewrite in_app_iff. cbn [In]. intuition.
Qed.

Lemma keys_fold_credit (w : Q) (l : list string) (a : acc) (k : string) :
  In k (keys (rc_scores (fold_left (credit w) l a)))
  <-> In k (keys (rc_scores a)) \/ In k l.
Proof.
  revert a; induction l as [|x l IH]; intros a; cbn [fold_left In].
  - tauto.
  - rewrite IH, keys_credit. intuition.
Qed.

Lemma in_set_In (k : string) (l : list string) :
  in_set k l = true <-> In k l.
Proof.
  unfold in_set. rewrite existsb_exists. split.
  - intros [x [Hx Heq]]. apply String.eqb_eq in Heq. now subst.
  - intros H. exists k. split; [assumption | apply String.eqb_refl].
Qed.

Lemma keys_step (a : acc) (f : feat) (k : string) :
  In k (keys (rc_scores (step a f)))
  <-> In k (keys (rc_scores a)) \/ credited_to f k = true.
Proof.
  unfold credited_to.
  destruct (skipped (token_of f)) eqn:Hsk; cbn [negb andb].
  - rewrite step_skipped by assumption. intuition discriminate.
  - destruct (match_root_cause (token_of f)) as [|m ms] eqn:E.
    + rewrite step_other, keys_credit by assumption.
      now rewrite String.eqb_eq.
    + rewrite step_matched by (rewrite E; discriminate).
      now rewrite E, keys_fold_credit, in_set_In.
Qed.

Lemma keys_fold_step (fs : list feat) (a : acc) (k : string) :
  In k (keys (rc_scores (fold_left step fs a)))
  <-> In k (keys (rc_scores a))
      \/ exists f, In f fs /\ credited_to f k = true.
Proof.
  revert a; induction fs as [|f fs IH]; intros a; cbn [fold_left In].
  - split; [auto | intros [H|[f [[] _]]]; exact H].
  - rewrite IH, keys_step. split.
    + intros [[H|H]|[g [Hg Hc]]]; [now left | right | right].
      * exists f. auto.
      * exists g. auto.
    + intros [H|[g [[->|Hg] Hc]]]; [now left; left | now left; right |].
      right. now exists g.
Qed.

(** X15. The report lists the buckets to which some scanned feature is
    credited, and no other. *)
Theorem report_lists_credited_buckets
  (incidents : list incident) (rc : string) :
  In rc (map name (aggregate incidents))
  <-> exists f, In f (all_feats incidents) /\ credited_to f rc = true.
Proof.
  unfold aggregate. split.
  - intros H. apply (Permutation_in _ (report_names _)) in H.
    rewrite scan_flat in H. apply keys_fold_step in H.
    destruct H as [[]|H]. exact H.
  - intros H.
    apply (Permutation_in _ (Permutation_sym (report_names _))).
    rewrite scan_flat. apply keys_fold_step. now right.
Qed.

(** X16. Every row of the report carries the totals of its bucket: the score
    is the sum of the absolute weights of the features credited to the bucket,
    the count is the number of those features. *)
Theorem reported_rows_are_totals (incidents : list incident) :
  Forall (fun b =>
            (aggregated_score b
             == sumQ (map (delta (name b)) (all_feats incidents)))%Q
            /\ count b
               = Z.of_nat
                   (List.length
                      (filter (fun f => credited_to f (name b))
                              (all_feats incidents))))
         (aggregate incidents).
Proof.
  unfold aggregate.
  destruct (scan_inv empty_acc incidents empty_inv) as (_ & Hnd & _).
  pose proof (fun rc => fold_step_score (all_feats incidents) empty_acc rc)
    as Hscore.
  pose proof (fun rc => fold_step_count (all_feats incidents) empty_acc rc)
    as Hcount.
  rewrite <- scan_flat in Hscore, Hcount.
  set (a := scan empty_acc incidents) in *.
  unfold report. apply Forall_map. apply Forall_forall. intros [k v] Hit.
  apply (Permutation_in _ (sorted_desc_perm _)) in Hit. cbn. split.
  - rewrite <- (get_In_NoDup 0%Q k v (rc_scores a) Hnd Hit).
    fold (score_of a k). rewrite Hscore. unfold score_of. cbn. ring.
  - fold (count_of a k). rewrite Hcount. unfold count_of. cbn. lia.
Qed.

End SummarizeMore.

(** ** Labels and training sets of incident_logger.py *)

Module TrainingFacts.
Import PyStrFacts Logger Training.

Lemma contains_mono (kw a b : string) :
  Sub a b -> contains kw a = true -> contains kw b = true.
Proof.
  intros Hab H. apply contains_Sub. apply contains_Sub in H.
  exact (Sub_trans _ _ _ H Hab).
Qed.

Lemma sapp_eq_app (x z a w : string) :
  (x ++ z)%string = (a ++ w)%string ->
  (exists m, a = (x ++ m)%string /\ z = (m ++ w)%string)
  \/ (exists m, x = (a ++ m)%string /\ w = (m ++ z)%string).
Proof.
  revert a; induction x as [|c x IH]; intros a H.
  - left. exists a. auto.
  - destruct a as [|c' a].
    + right. exists (String c x). auto.
    + simpl in H. injection H as -> H.
      destruct (IH _ H) as [[m [-> ->]]|[m [-> ->]]]; [left|right];
        exists m; auto.
Qed.

Lemma no_char_app (c : ascii) (a b : string) :
  no_char c (a ++ b) = no_char c a && no_char c b.
Proof.
  induction a as [|x a IH]; simpl; [reflexivity|].
  now rewrite IH, andb_assoc.
Qed.

Lemma no_char_head (c : ascii) (s : string) : no_char c (String c s) = false.
Proof. simpl. now rewrite Ascii.eqb_refl. Qed.

(** A keyword without the character [c] cannot straddle an occurrence of
    [c]. *)
Lemma Sub_app_sep (kw a b : string) (c : ascii) :
  no_char c kw = true -> Sub kw (a ++ String c b) -> Sub kw a \/ Sub kw b.
Proof.
  intros Hc [x [y H]]. symmetry in H.
  destruct (sapp_eq_app _ _ _ _ H) as [[m [-> Hm]]|[m [-> Hm]]].
  - destruct (sapp_eq_app _ _ _ _ Hm) as [[m1 [-> _]]|[m2 [-> Hm2]]].
    + left. now exists x, m1.
    + destruct m2 as [|c2 m2].
      * left. exists x, "". now rewrite !sapp_nil_r.
      * simpl in Hm2. injection Hm2 as <- _.
        rewrite no_char_app, no_char_head, andb_false_r in Hc. discriminate.
  - destruct m as [|c' m].
    + simpl in Hm. destruct kw as [|k0 kw].
      * left. now exists "", a.
      * simpl in Hm. injection Hm as <- _.
        rewrite no_char_head in Hc. discriminate.
    + simpl in Hm. injection Hm as _ ->. right. now exists m, y.
Qed.

Lemma contains_app_inert (kw a b : string) (c : ascii) :
  no_char c kw = true -> contains kw b = false ->
  contains kw (a ++ String c b) = contains kw a.
Proof.
  intros Hc Hb. apply Bool.eq_iff_eq_true. rewrite !contains_Sub. split.
  - intros H. destruct (Sub_app_sep _ _ _ _ Hc H) as [Ha|Hb']; [exact Ha|].
    apply contains_Sub in Hb'. congruence.
  - intros [x [y ->]]. exists x, (y ++ String c b)%string.
    now rewrite !sapp_assoc.
Qed.

Lemma label_severity_note (d : string) (i : bool) (w : Z) :
  label_severity (d ++ slippery_note) i w = label_severity d i w.
Proof.
  unfold label_severity. rewrite lower_app.
  change (lower slippery_note)
    with (String ";" " additional note: slippery").
  now rewrite !contains_app_inert by reflexivity.
Qed.

Lemma perturb_label (r : Q) (e : event) :
  event_label (perturb r e) = event_label e.
Proof.
  unfold perturb, event_label.
  destruct (negb _); [|reflexivity]. cbn. apply label_severity_note.
Qed.

Lemma train_events_from_labels (draws : nat -> Q) (events : list event) :
  forall k,
    map event_label (train_events_from draws k events)
    = flat_map (fun e => repeat (event_label e) 3) events
    /\ List.length (train_events_from draws k events)
       = 3 * List.length events.
Proof.
  induction events as [|e es IH]; intros k; [split; reflexivity|].
  destruct (IH (k + 3)) as [IH1 IH2].
  cbn [train_events_from flat_map seq map repeat]. split.
  - rewrite map_app. cbn [map]. rewrite !perturb_label, IH1. reflexivity.
  - rewrite length_app, IH2. cbn [List.length]. lia.
Qed.

(** X17. Whatever the random draws, [main] trains on three copies of every
    event, in order, and the note it may add to a copy never changes the
    label: the labels of the training set are those of the events, three times
    each. *)
Theorem train_events_labels (draws : nat -> Q) (events : list event) :
  map event_label (train_events draws events)
  = flat_map (fun e => repeat (event_label e) 3) events
  /\ List.length (train_events draws events) = 3 * List.length events.
Proof. apply train_events_from_labels. Qed.

(** X18. More text, an injury or more witnesses never lower the severity. *)
Theorem label_severity_monotone
  (d d' : string) (i i' : bool) (w w' : Z) :
  Sub d d' -> (i = true -> i' = true) -> (w <= w')%Z ->
  rank (label_severity d i w) <= rank (label_severity d' i' w').
Proof.
  intros Hsub Hi Hw. unfold label_severity.
  assert (Hm : forall kw, contains kw (lower d) = true ->
                          contains kw (lower d') = true).
  { intros kw. apply contains_mono. now apply Sub_lower. }
  assert (Hl : (3 <=? w)%Z = true -> (3 <=? w')%Z = true).
  { rewrite !Z.leb_le. lia. }
  remember (contains "hospital" (lower d) || i
            || contains "dizziness" (lower d) || contains "fire" (lower d)
            || contains "chemical" (lower d)) as C.
  remember (contains "hospital" (lower d') || i'
            || contains "dizziness" (lower d') || contains "fire" (lower d')
            || contains "chemical" (lower d')) as C'.
  remember (contains "cut" (lower d) || contains "hit" (lower d)
            || (3 <=? w)%Z) as M.
  remember (contains "cut" (lower d') || contains "hit" (lower d')
            || (3 <=? w')%Z) as M'.
  assert (HC : C = true -> C' = true).
  { subst C C'. rewrite !orb_true_iff. intuition auto. }
  assert (HM : M = true -> M' = true).
  { subst M M'. rewrite !orb_true_iff. intuition auto. }
  destruct C, C', M, M'; cbn; try lia;
    try (specialize (HC eq_refl); discriminate);
    try (specialize (HM eq_refl); discriminate).
Qed.

Lemma label_severity_monotone_witness :
  rank (label_severity "Worker slipped" false 1)
  <= rank (label_severity "Worker slipped; cut on hand" false 1).
Proof.
  apply (label_severity_monotone "Worker slipped"
           "Worker slipped; cut on hand" false false 1 1).
  - exists "", "; cut on hand". reflexivity.
  - intros H. exact H.
  - lia.
Defined.

(** X19. [train_text_classifier] has no check of its own: it raises exactly
    when fitting raises, with the same exception, and once fitting has
    returned it returns the fitted pipeline whatever the look-up of the
    classes does. *)
Theorem train_text_classifier_outcome
  (fit : list string -> list label -> result Pipeline)
  (list_set : list label -> list label) (events : list event) :
  match fit (map description events) (map event_label events) with
  | Raise e => train_text_classifier fit list_set events = Raise e
  | Ok pipeline =>
      exists classes,
        train_text_classifier fit list_set events = Ok (pipeline, classes)
        /\ (forall clf cs,
               named_steps_get pipeline "logisticregression" = Ok (Some clf)
               -> classes_ clf = Ok cs -> classes = cs)
        /\ (named_steps_get pipeline "logisticregression" = Ok None ->
            classes = list_set (map event_label events))
  end.
Proof.
  unfold train_text_classifier.
  destruct (fit _ _) as [p|e]; cbn [bind]; [|reflexivity].
  eexists. split; [reflexivity|]. unfold named_steps_item. split.
  - intros clf cs -> . cbn [bind]. now intros ->.
  - intros ->. reflexivity.
Qed.

End TrainingFacts.

(** ** More on explanations and log entries *)

Module LoggerMore.
Import Logger LoggerFacts Training.

(** *** The index of the predicted label *)

Lemma index_of_In (x : label) (l : list label) :
  In x l ->
  exists i, index_of x l = Ok (Z.of_nat i)
            /\ nth_error l i = Some x
            /\ forall j, j < i -> nth_error l j <> Some x.
Proof.
  induction l as [|y l IH]; intros Hin; [destruct Hin|].
  cbn [index_of]. destruct (String.eqb_spec y x) as [->|Hne].
  - exists 0. split; [reflexivity|]. split; [reflexivity|].
    intros j Hj. lia.
  - destruct Hin as [Heq|Hin]; [contradiction|].
    destruct (IH Hin) as [i [Hi [Hn Hfirst]]]. exists (S i).
    rewrite Hi. cbn [bind]. split; [|split].
    + f_equal. lia.
    + exact Hn.
    + intros [|j] Hj; cbn [nth_error]; [congruence|].
      apply Hfirst. lia.
Qed.

Lemma index_of_notin (x : label) (l : list label) :
  ~ In x l -> index_of x l = Raise (Exception "ValueError").
Proof.
  induction l as [|y l IH]; intros Hnin; [reflexivity|].
  cbn [index_of]. destruct (String.eqb_spec y x) as [->|Hne].
  - exfalso. apply Hnin. now left.
  - rewrite IH; [reflexivity|]. intros H. apply Hnin. now right.
Qed.

(** X20. With the classifier step at hand, the label index is the first
    position of the predicted label among [classes_], and there is none when
    the label is not among them. *)
Theorem label_index_is_first_position
  (pipeline : Pipeline) (pred : label) (clf : LogisticRegression)
  (cs : list label) :
  named_steps_get pipeline "logisticregression" = Ok (Some clf) ->
  classes_ clf = Ok cs ->
  (In pred cs ->
   exists i, try_label_index pipeline pred = Some (Z.of_nat i)
             /\ nth_error cs i = Some pred
             /\ forall j, j < i -> nth_error cs j <> Some pred)
  /\ (~ In pred cs -> try_label_index pipeline pred = None).
Proof.
  intros Hstep Hcs. unfold try_label_index. rewrite Hstep. cbn [bind].
  rewrite Hcs. cbn [bind]. split.
  - intros Hin. destruct (index_of_In _ _ Hin) as [i [Hi H]].
    exists i. rewrite Hi. cbn [bind]. auto.
  - intros Hnin. now rewrite (index_of_notin _ _ Hnin).
Qed.

Lemma label_index_is_first_position_witness :
  (In "major" class_names3 ->
   exists i, try_label_index pipeline3 "major" = Some (Z.of_nat i)
             /\ nth_error class_names3 i = Some "major"
             /\ forall j, j < i -> nth_error class_names3 j <> Some "major")
  /\ (~ In "major" class_names3 -> try_label_index pipeline3 "major" = None).
Proof.
  apply (label_index_is_first_position pipeline3 "major"
           (mkClf (Ok class_names3)) class_names3).
  - reflexivity.
  - reflexivity.
Defined.

Lemma in_keys_In (i : Z) (exp : LimeExplanation) :
  in_keys i exp = true <-> In i (local_exp_keys exp).
Proof.
  unfold in_keys. rewrite existsb_exists. split.
  - intros [k [Hk Heq]]. apply Z.eqb_eq in Heq. now subst.
  - intros H. exists i. split; [assumption | apply Z.eqb_refl].
Qed.

(** X21. The index that [as_list] is asked for is a key of [local_exp], or it
    is 0 and [local_exp] has no key. *)
Theorem chosen_index_is_a_key (label_index : option Z) (exp : LimeExplanation) :
  In (pick_label_index label_index exp) (local_exp_keys exp)
  \/ (local_exp_keys exp = []
      /\ pick_label_index label_index exp = 0%Z).
Proof.
  assert (Hfb : In (fallback_index exp) (local_exp_keys exp)
                \/ (local_exp_keys exp = [] /\ fallback_index exp = 0%Z)).
  { destruct (fallback_index_spec exp) as [H0 H1].
    destruct (local_exp_keys exp) as [|k ks] eqn:E.
    - right. auto.
    - left. apply H1. discriminate. }
  destruct label_index as [i|]; cbn [pick_label_index]; [|exact Hfb].
  destruct (in_keys i exp) eqn:E; [|exact Hfb].
  left. now apply in_keys_In.
Qed.

(** X22. When the index of the predicted label is resolved and is a key of
    [local_exp], the features returned are those of that class. *)
Theorem predicted_index_is_used
  (pipeline : Pipeline) (class_names : list label) (text : string)
  (explainer : LimeTextExplainer) (num_features : Z) (rs rs' : RandomState)
  (exp : LimeExplanation) (pred : label) (preds : list label) (i : Z) :
  explain_instance explainer text (predict_proba pipeline) num_features rs
  = (Ok exp, rs') ->
  predict pipeline [text] = Ok (pred :: preds) ->
  try_label_index pipeline pred = Some i ->
  In i (local_exp_keys exp) ->
  explain_with_lime pipeline class_names text explainer num_features rs
  = (feature_list <- as_list exp i ;;
     Ok (pred, map to_feat feature_list, exp),
     rs').
Proof.
  intros Hexp Hpred Hi Hin. unfold explain_with_lime.
  rewrite Hexp. cbn [bind]. rewrite Hpred. cbn [bind item0].
  rewrite Hi. cbn [pick_label_index].
  now rewrite (proj2 (in_keys_In i exp) Hin).
Qed.

Lemma predicted_index_is_used_witness :
  explain_with_lime pipeline_major class_names3 (description fire_event)
    explainer_class1 5%Z 0%N
  = (feature_list <- as_list exp_class1 1%Z ;;
     Ok ("major", map to_feat feature_list, exp_class1),
     1%N).
Proof.
  apply (predicted_index_is_used pipeline_major class_names3
           (description fire_event) explainer_class1 5%Z 0%N 1%N exp_class1
           "major" [] 1%Z).
  - reflexivity.
  - reflexivity.
  - reflexivity.
  - simpl. now left.
Defined.

(** *** What explain_with_lime raises *)

(** X23. An exception leaves [explain_with_lime] only from
    [explain_instance], from [predict] (or from indexing its empty result)
    or from [as_list]: whatever the look-up of the label index raises is
    caught. *)
Theorem explain_with_lime_raises_only
  (pipeline : Pipeline) (class_names : list label) (text : string)
  (explainer : LimeTextExplainer) (num_features : Z) (rs rs' : RandomState)
  (e : exn) :
  explain_with_lime pipeline class_names text explainer num_features rs
  = (Raise e, rs') ->
  explain_instance explainer text (predict_proba pipeline) num_features rs
  = (Raise e, rs')
  \/ predict pipeline [text] = Raise e
  \/ (predict pipeline [text] = Ok [] /\ e = Exception "IndexError")
  \/ exists exp idx,
       explain_instance explainer text (predict_proba pipeline) num_features
         rs
       = (Ok exp, rs')
       /\ as_list exp idx = Raise e.
Proof.
  unfold explain_with_lime. intros H.
  destruct (explain_instance explainer text (predict_proba pipeline)
              num_features rs) as [[exp|e1] rs1]; cbn [bind] in H.
  2: { injection H as -> ->. now left. }
  destruct (predict pipeline [text]) as [[|pred preds]|e2];
    cbn [bind item0] in H.
  - injection H as <- _. right. right. left. auto.
  - destruct (as_list exp _) as [fl|e3] eqn:Hfl; cbn [bind] in H;
      [discriminate|].
    injection H as -> ->.
    right. right. right. exists exp. eexists. split; [reflexivity|].
    exact Hfl.
  - injection H as -> _. right. now left.
Qed.

Lemma explain_with_lime_raises_only_witness :
  explain_instance explainer_strict "" (predict_proba pipeline3) 5%Z 0%N
  = (Raise (Exception "ValueError"), 0%N)
  \/ predict pipeline3 [""] = Raise (Exception "ValueError")
  \/ (predict pipeline3 [""] = Ok []
      /\ Exception "ValueError" = Exception "IndexError")
  \/ exists exp idx,
       explain_instance explainer_strict "" (predict_proba pipeline3) 5%Z
         0%N
       = (Ok exp, 0%N)
       /\ as_list exp idx = Raise (Exception "ValueError").
Proof.
  apply (explain_with_lime_raises_only pipeline3 class_names3 ""
           explainer_strict 5%Z 0%N 0%N (Exception "ValueError")).
  reflexivity.
Defined.

(** *** The log, entry by entry *)

Lemma log_entry_inv (pipeline : Pipeline) (class_names : list label)
  (explainer : LimeTextExplainer) (e : event) (rs : RandomState)
  (en : entry) :
  fst (log_entry pipeline class_names explainer e rs) = Ok en ->
  entry_of pipeline e en
  /\ summary en = summary_of en (map top_feat (explanation en))
  /\ exists exp rs',
       explain_with_lime pipeline class_names (description e) explainer 5%Z
         rs
       = (Ok (predicted_severity en, explanation en, exp), rs').
Proof.
  unfold log_entry. intros H.
  destruct (explain_with_lime _ _ _ _ _ rs)
    as [[[[pred expl] exp]|x] rs1] eqn:Hx; cbn [fst bind] in H;
    [|discriminate].
  destruct (predict_proba pipeline [description e]) as [rows|x];
    cbn [bind] in H; [|discriminate].
  destruct (item0 rows) as [proba|x]; cbn [bind] in H; [|discriminate].
  destruct (proba_dict class_names proba) as [pp|x]; cbn [bind] in H;
    [|discriminate].
  injection H as <-. cbn. split; [|split].
  - unfold entry_of. cbn. repeat split.
    destruct (explain_with_lime_inv _ _ _ _ _ _ _ _ _ _ Hx)
      as [preds [fl [_ [Hp _]]]].
    now exists preds.
  - reflexivity.
  - now exists exp, rs1.
Qed.

Lemma for_each_Forall2 {A B}
  (f : A -> RandomState -> result B * RandomState) (l : list A) :
  forall rs ys,
    fst (for_each f l rs) = Ok ys ->
    Forall2 (fun x y => exists s, fst (f x s) = Ok y) l ys.
Proof.
  induction l as [|x l IH]; intros rs ys H; cbn [for_each] in H.
  - injection H as <-. constructor.
  - destruct (f x rs) as [[y|e] rs1] eqn:Hy; cbn [fst] in H;
      [|discriminate].
    specialize (IH rs1).
    destruct (for_each f l rs1) as [[ys'|e] rs2]; cbn [fst] in *;
      [|discriminate].
    injection H as <-. constructor; [|now apply IH].
    exists rs. now rewrite Hy.
Qed.

(** X24. A log that is returned has one entry per event, in the order of
    the events; an entry repeats the id, timestamp, location, description,
    witness count and injury flag of its event, and its predicted severity
    is the first label that [predict] gives for the description. *)
Theorem log_follows_events
  (new_explainer : list label -> LimeTextExplainer)
  (events : list event) (pipeline : Pipeline) (class_names : list label)
  (rs : RandomState) (log : list entry) :
  fst (generate_incident_log new_explainer events pipeline class_names rs)
  = Ok log ->
  Forall2 (entry_of pipeline) events log
  /\ List.length log = List.length events.
Proof.
  unfold generate_incident_log. intros H. apply for_each_Forall2 in H.
  split.
  - eapply Forall2_impl; [|exact H].
    intros e en [s He]. now apply log_entry_inv in He.
  - symmetry. eapply Forall2_length. exact H.
Qed.

Lemma log_follows_events_witness :
  Forall2 (entry_of pipeline3) [fire_event] fire_log
  /\ List.length fire_log = List.length [fire_event].
Proof.
  apply (log_follows_events new_explainer_class1 [fire_event] pipeline3
           class_names3 0%N fire_log).
  reflexivity.
Defined.

(** X25. Every feature written to a log entry carries both its token and
    its weight. *)
Theorem log_features_have_both_keys
  (new_explainer : list label -> LimeTextExplainer)
  (events : list event) (pipeline : Pipeline) (class_names : list label)
  (rs : RandomState) (log : list entry) :
  fst (generate_incident_log new_explainer events pipeline class_names rs)
  = Ok log ->
  Forall (fun en =>
            Forall (fun f => exists t w, f = mkFeat (Some t) (Some w))
                   (explanation en)) log.
Proof.
  unfold generate_incident_log. intros H.
  apply (for_each_Forall _ _) with (2 := H). intros e s en He.
  apply log_entry_inv in He. destruct He as [_ [_ [exp [rs' Hx]]]].
  destruct (explain_with_lime_inv _ _ _ _ _ _ _ _ _ _ Hx)
    as [preds [fl [_ [_ [_ Hfl]]]]].
  rewrite Hfl.
  apply Forall_map. apply Forall_forall. intros [t w] _. now exists t, w.
Qed.

Lemma log_features_have_both_keys_witness :
  Forall (fun en =>
            Forall (fun f => exists t w, f = mkFeat (Some t) (Some w))
                   (explanation en)) fire_log.
Proof.
  apply (log_features_have_both_keys new_explainer_class1 [fire_event]
           pipeline3 class_names3 0%N fire_log).
  reflexivity.
Defined.

(** X26. The first event whose entry cannot be built ends the run with its
    exception: no partial log is returned, and the events after it are not
    looked at.  [rs1] is the random state that the events before it
    leave. *)
Theorem first_failure_aborts
  (new_explainer : list label -> LimeTextExplainer)
  (pipeline : Pipeline) (class_names : list label)
  (before after : list event) (e : event) (x : exn)
  (rs rs1 : RandomState) (entries : list entry) :
  generate_incident_log new_explainer before pipeline class_names rs
  = (Ok entries, rs1) ->
  fst (log_entry pipeline class_names (new_explainer class_names) e rs1)
  = Raise x ->
  fst (generate_incident_log new_explainer (before ++ e :: after)
         pipeline class_names rs)
  = Raise x.
Proof.
  unfold generate_incident_log. revert rs entries.
  induction before as [|e' es IH]; intros rs entries Hb He;
    cbn [app for_each] in *.
  - injection Hb as _ <-.
    destruct (log_entry _ _ _ e rs) as [[en|x'] s]; cbn [fst] in *;
      [discriminate|].
    injection He as ->. reflexivity.
  - destruct (log_entry _ _ _ e' rs) as [[en|x'] s]; [|discriminate].
    destruct (for_each _ es s) as [[ens|x'] s'] eqn:Hes; [|discriminate].
    injection Hb as _ <-.
    specialize (IH s ens Hes He).
    destruct (for_each _ (es ++ e :: after) s) as [[ens'|x'] s''];
      cbn [fst] in *; [discriminate | exact IH].
Qed.

Lemma first_failure_aborts_witness :
  fst (generate_incident_log new_explainer_strict
         ([fire_event] ++ empty_event :: [ladder_event]) pipeline3
         class_names3 0%N)
  = Raise (Exception "ValueError").
Proof.
  eapply (first_failure_aborts new_explainer_strict pipeline3 class_names3
            [fire_event] [ladder_event] empty_event
            (Exception "ValueError") 0%N).
  - reflexivity.
  - reflexivity.
Defined.

(** *** The phrases of the summary *)

Lemma contains_equals_cons (c : ascii) (s : string) :
  contains "=" (String c s) = Ascii.eqb c "=" || contains "=" s.
Proof.
  cbn [contains prefix].
  destruct (ascii_dec "=" c) as [<-|Hne].
  - destruct s; reflexivity.
  - destruct (Ascii.eqb_spec c "=") as [->|_]; [contradiction|].
    reflexivity.
Qed.

Lemma before_eq_no_equals (s : string) : contains "=" (before_eq s) = false.
Proof.
  induction s as [|c s IH]; [reflexivity|]. cbn [before_eq].
  destruct (Ascii.eqb c "=") eqn:E; [reflexivity|].
  now rewrite contains_equals_cons, E, IH.
Qed.

Lemma before_eq_cut (s : string) :
  contains "=" s = true ->
  exists rest, s = (before_eq s ++ String "=" rest)%string.
Proof.
  induction s as [|c s IH]; [discriminate|].
  rewrite contains_equals_cons. cbn [before_eq].
  destruct (Ascii.eqb_spec c "=") as [->|Hne]; cbn [orb].
  - intros _. now exists s.
  - intros H. destruct (IH H) as [rest Hr]. exists rest.
    cbn [append]. f_equal. exact Hr.
Qed.

Lemma top_feat_cut (f : Summarize.feat) :
  cut_at_first_equals (get_feature f) (top_feat f).
Proof.
  unfold cut_at_first_equals, top_feat.
  destruct (contains "=" (get_feature f)) eqn:E.
  - right. split; [apply before_eq_no_equals | now apply before_eq_cut].
  - left. auto.
Qed.

Lemma Forall2_map_same {A B C} (R : B -> C -> Prop) (f : A -> B)
  (g : A -> C) (l : list A) :
  (forall x, R (f x) (g x)) -> Forall2 R (map f l) (map g l).
Proof.
  intros H. induction l as [|x l IH]; cbn [map]; constructor; auto.
Qed.

(** X27. The summary of a returned entry reads "Incident at", the location,
    "on", the timestamp, "classified as", the predicted severity, "Key
    contributing phrases:" and the phrases joined by ", ", closed by a full
    stop; the phrases are, in order, the names of the entry's features,
    each cut before its first ["="] and left whole when it has none. *)
Theorem summary_lists_cut_names
  (new_explainer : list label -> LimeTextExplainer)
  (events : list event) (pipeline : Pipeline) (class_names : list label)
  (rs : RandomState) (log : list entry) :
  fst (generate_incident_log new_explainer events pipeline class_names rs)
  = Ok log ->
  Forall (fun en =>
            exists phrases,
              summary en = summary_of en phrases
              /\ Forall2 cut_at_first_equals
                   (map get_feature (explanation en)) phrases) log.
Proof.
  unfold generate_incident_log. intros H.
  apply (for_each_Forall _ _) with (2 := H). intros e s en He.
  apply log_entry_inv in He. destruct He as [_ [Hs _]].
  exists (map top_feat (explanation en)). split; [exact Hs|].
  apply Forall2_map_same. apply top_feat_cut.
Qed.

Lemma summary_lists_cut_names_witness :
  Forall (fun en =>
            exists phrases,
              summary en = summary_of en phrases
              /\ Forall2 cut_at_first_equals
                   (map get_feature (explanation en)) phrases) fire_log.
Proof.
  apply (summary_lists_cut_names new_explainer_class1 [fire_event]
           pipeline3 class_names3 0%N fire_log).
  reflexivity.
Defined.

(** *** The bounds of the predicted-probability mapping *)

Lemma item_lt {A} (l : list A) (i : nat) :
  i < List.length l -> exists x, item l i = Ok x.
Proof.
  intros H. unfold item. destruct (nth_error l i) as [x|] eqn:E.
  - now exists x.
  - apply nth_error_None in E. lia.
Qed.

Lemma proba_items_short (class_names : list label) (proba : list Q) :
  forall n i d,
    i <= List.length proba -> List.length proba < i + n ->
    i + n <= List.length class_names ->
    proba_items class_names proba (seq i n) d
    = Raise (Exception "IndexError").
Proof.
  induction n as [|n IH]; intros i d H1 H2 H3; [lia|].
  cbn [seq proba_items].
  destruct (item_lt class_names i) as [k ->]; [lia|]. cbn [bind].
  destruct (Nat.eq_dec i (List.length proba)) as [->|Hne].
  - unfold item. rewrite (proj2 (nth_error_None proba _) (Nat.le_refl _)).
    reflexivity.
  - destruct (item_lt proba i) as [v ->]; [lia|]. cbn [bind].
    apply IH; lia.
Qed.

(** X28. With fewer probabilities than class names, building the mapping
    raises IndexError. *)
Theorem proba_dict_too_few (class_names : list label) (proba : list Q) :
  List.length proba < List.length class_names ->
  proba_dict class_names proba = Raise (Exception "IndexError").
Proof.
  intros H. unfold proba_dict. apply proba_items_short; lia.
Qed.

Lemma proba_dict_too_few_witness :
  proba_dict class_names3 [(1 # 2)%Q; (1 # 2)%Q]
  = Raise (Exception "IndexError").
Proof.
  apply (proba_dict_too_few class_names3 [(1 # 2)%Q; (1 # 2)%Q]).
  simpl. lia.
Defined.

Lemma proba_items_surplus (cn2 : list label) :
  forall (pr2 : list Q) (cn1 : list label) (pr1 : list Q) (d : dict Q),
    List.length cn1 = List.length pr1 ->
    List.length cn2 <= List.length pr2 ->
    NoDup (cn1 ++ cn2) ->
    keys d = cn1 ->
    proba_items (cn1 ++ cn2) (pr1 ++ pr2)
      (seq (List.length cn1) (List.length cn2)) d
    = Ok (d ++ combine cn2 pr2).
Proof.
  induction cn2 as [|k cn2 IH]; intros pr2 cn1 pr1 d H1 H2 Hnd Hk.
  - simpl. now rewrite app_nil_r.
  - destruct pr2 as [|v pr2]; [simpl in H2; lia|].
    cbn [List.length seq proba_items].
    rewrite item_app_here. cbn [bind].
    rewrite H1, item_app_here. cbn [bind]. rewrite <- H1.
    assert (Hfresh : ~ In k (keys d)).
    { rewrite Hk. apply NoDup_remove_2 in Hnd.
      intros Hin. apply Hnd. apply in_or_app. now left. }
    rewrite (set_fresh _ _ _ Hfresh).
    specialize (IH pr2 (cn1 ++ [k]) (pr1 ++ [v]) (d ++ [(k, v)])).
    rewrite <- !app_assoc in IH. cbn [app] in IH.
    rewrite !length_app in IH. cbn [List.length] in IH.
    rewrite Nat.add_1_r in IH. cbn [combine]. apply IH.
    + lia.
    + simpl in H2. lia.
    + exact Hnd.
    + unfold keys in *. rewrite map_app, Hk. reflexivity.
Qed.

Lemma keys_combine_le {V} (ks : list string) (vs : list V) :
  List.length ks <= List.length vs -> keys (combine ks vs) = ks.
Proof.
  unfold keys. revert vs; induction ks as [|k ks IH]; intros [|v vs] H;
    simpl in *; try lia; [reflexivity | reflexivity |].
  now rewrite IH by lia.
Qed.

Lemma values_combine_le {V} (ks : list string) (vs : list V) :
  List.length ks <= List.length vs ->
  values (combine ks vs) = firstn (List.length ks) vs.
Proof.
  unfold values. revert vs; induction ks as [|k ks IH]; intros [|v vs] H;
    simpl in *; try lia; [reflexivity | reflexivity |].
  now rewrite IH by lia.
Qed.

(** X29. With distinct class names and more probabilities than class names,
    the mapping is built from the first probabilities, one per class name in
    order, and the surplus is dropped without an error. *)
Theorem proba_dict_drops_surplus (class_names : list label) (proba : list Q) :
  NoDup class_names ->
  List.length class_names <= List.length proba ->
  exists d,
    proba_dict class_names proba = Ok d
    /\ keys d = class_names
    /\ values d = firstn (List.length class_names) proba.
Proof.
  intros Hnd Hlen. exists (combine class_names proba). split; [|split].
  - unfold proba_dict.
    exact (proba_items_surplus class_names proba [] [] [] eq_refl Hlen
             Hnd eq_refl).
  - now apply keys_combine_le.
  - now apply values_combine_le.
Qed.

Lemma proba_dict_drops_surplus_witness :
  exists d,
    proba_dict ["critical"; "major"] [(1 # 2)%Q; (3 # 10)%Q; (1 # 5)%Q] = Ok d
    /\ keys d = ["critical"; "major"]
    /\ values d
       = firstn (List.length ["critical"; "major"])
                [(1 # 2)%Q; (3 # 10)%Q; (1 # 5)%Q].
Proof.
  apply (proba_dict_drops_surplus ["critical"; "major"]
           [(1 # 2)%Q; (3 # 10)%Q; (1 # 5)%Q]).
  - repeat (constructor; [simpl; intuition discriminate|]). constructor.
  - simpl. lia.
Defined.

(** *** When the log is produced *)

(** X30. For a fitted classifier (distinct class names, one probability per
    class for every text), the log is produced as soon as every event can
    be explained, whatever the random state. *)
Theorem log_is_produced
  (new_explainer : list label -> LimeTextExplainer)
  (events : list event) (pipeline : Pipeline) (class_names : list label)
  (rs : RandomState) :
  NoDup class_names ->
  proba_contract pipeline class_names ->
  Forall (fun e => forall s, exists r,
              fst (explain_with_lime pipeline class_names (description e)
                     (new_explainer class_names) 5%Z s) = Ok r) events ->
  exists log,
    fst (generate_incident_log new_explainer events pipeline class_names rs)
    = Ok log.
Proof.
  intros Hnd Hc Hall. unfold generate_incident_log. revert rs.
  induction Hall as [|e es He Hall IH]; intros rs; cbn [for_each].
  - now exists [].
  - destruct (He rs) as [r Hr].
    destruct (log_entry_returns _ _ _ e rs r Hnd Hc Hr) as [en Hen].
    destruct (log_entry _ _ _ e rs) as [[en'|x] rs1]; cbn [fst] in Hen;
      [|discriminate].
    destruct (IH rs1) as [log Hlog].
    destruct (for_each _ es rs1) as [[log'|x] rs2]; cbn [fst] in *;
      [|discriminate].
    now exists (en' :: log').
Qed.

Lemma log_is_produced_witness :
  exists log,
    fst (generate_incident_log new_explainer_class1
           [fire_event; ladder_event] pipeline3 class_names3 0%N)
    = Ok log.
Proof.
  apply (log_is_produced new_explainer_class1 [fire_event; ladder_event]
           pipeline3 class_names3 0%N).
  - repeat (constructor; [simpl; intuition discriminate|]). constructor.
  - intros text. exists [(1 # 2)%Q; (3 # 10)%Q; (1 # 5)%Q].
    split; [reflexivity|]. split; [reflexivity|].
    unfold sums_to_one. vm_compute. discriminate.
  - repeat constructor; intros s; eexists; reflexivity.
Defined.

End LoggerMore.
